(** * The window_funnel aggregate: state, merge, codec and evaluation

    Shallow embedding of [be/src/exprs/agg/window_funnel.h].

    - [WindowFunnelState] is the per-group state: the list of
      (timestamp, event position) pairs, the window size, the number of
      funnel events and the [sorted] flag.
    - [WindowFunnelAggregateFunction] is the driver-facing glue that feeds
      rows into the state and moves states between aggregation phases.

    Integers are mathematical integers [Z]; the narrowing conversions the
    C++ code performs are written out with [to_uint8] and [to_time]. The
    one addition on timestamps, [events_timestamp[event_idx - 1] +
    window_size], is an addition of two [int64_t]: its result is reduced
    to 64 bits with [to_time], so that a sum that does not fit wraps
    around as the machine addition does. Vectors are lists read with stdpp's
    lookup and written with stdpp's insert; a read or write outside the
    vector is C++ undefined behaviour and is reported by the model as an
    explicit out-of-range outcome.

    The condition array of a row is seen through its size and the position
    of its first true entry (0 when there is none), which is the event
    position the aggregate function hands to the state. *)

From Stdlib Require Import ZArith Lia.
From stdpp Require Import base tactics option list sorting.

Local Open Scope Z_scope.

(** ** Machine integers *)

(** Conversion of an [int64_t] to [uint8_t]: reduction modulo 2^8. *)
Definition to_uint8 (z : Z) : Z := z `mod` 256.

(** Modelled from the spec: the timestamp type [TimeType::type] comes from
    [RunTimeTypeTraits], which is declared elsewhere; it is taken to be the
    comparable 64-bit signed integer of the datetime instantiation (unix
    seconds). Conversion to it is two's complement wrap-around, the identity
    on the [int64_t] that [get_int64] returns. *)
Definition to_time (z : Z) : Z := (z + 2 ^ 63) `mod` 2 ^ 64 - 2 ^ 63.

(** Conversion of a [uint8_t] to [bool]. *)
Definition uint8_to_bool (z : Z) : bool := negb (to_uint8 z =? 0).

(** Conversion of a [bool] to [int64_t]. *)
Definition bool_to_int64 (b : bool) : Z := if b then 1 else 0.

Definition is_uint8 (z : Z) : Prop := 0 ≤ z < 256.
Definition is_int64 (z : Z) : Prop := - 2 ^ 63 ≤ z < 2 ^ 63.

(** ** Timestamp/event pairs and their order *)

(** [std::pair<TimeType::type, uint8_t>]: first is the timestamp, second is
    the event position. *)
Definition TimestampEvent : Type := Z * Z.

(** [operator<] of [std::pair]: lexicographic. [ComparePairFirst] compares
    [std::tie(lhs) < std::tie(rhs)], a one-element tuple holding the whole
    pair, so it is this very order. *)
Definition pair_lt (lhs rhs : TimestampEvent) : Prop :=
  lhs.1 < rhs.1 ∨ (¬ rhs.1 < lhs.1 ∧ lhs.2 < rhs.2).

(** The sorting and merging algorithms keep [x] before [y] unless
    [y < x]. *)
Definition pair_le (x y : TimestampEvent) : Prop := ¬ pair_lt y x.

Global Instance pair_lt_dec : RelDecision pair_lt.
Proof. intros x y. unfold pair_lt. apply _. Defined.

Global Instance pair_le_dec : RelDecision pair_le.
Proof. intros x y. unfold pair_le. apply _. Defined.

(** ** The standard algorithms

    [std::stable_sort], [std::sort] and [std::inplace_merge] belong to the
    C++ standard library. They are modelled by their contract for the
    comparator [pair_lt]: a sort returns a non-decreasing rearrangement of
    its range, and [inplace_merge] on two consecutive sorted runs takes the
    element of the second run only when it is strictly less than the element
    of the first. Under [pair_lt] two elements that compare equivalent are
    the same pair, so the non-decreasing rearrangement of a range is unique
    (lemma [sorted_permutation_unique] below) and the stable and the
    unstable sort have the same result. When a run handed to
    [inplace_merge] is not sorted the C++ behaviour is undefined; the model
    then still returns the interleaving computed by [list_merge]. *)
Definition std_stable_sort (l : list TimestampEvent) : list TimestampEvent :=
  merge_sort pair_le l.

Definition std_sort (l : list TimestampEvent) : list TimestampEvent :=
  merge_sort pair_le l.

Definition std_inplace_merge (first second : list TimestampEvent)
  : list TimestampEvent :=
  list_merge pair_le first second.

(** A [DatumArray] whose elements are read with [get_int64]. *)
Definition DatumArray : Type := list Z.

Module WindowFunnelState.

Record State : Type := mkState {
  events_list : list TimestampEvent;
  window_size : Z;
  events_size : Z;
  sorted : bool
}.

(** A freshly constructed state: [events_list] is empty and [sorted] is
    [true]. [window_size] and [events_size] have no initialiser; the values
    they happen to hold are parameters. *)
Definition fresh (window events : Z) : State :=
  {| events_list := []; window_size := window; events_size := events;
     sorted := true |}.

(** [sort()]: stable sort of the (mutable) event list; the flag is left
    as it is. *)
Definition sort (st : State) : State :=
  {| events_list := std_stable_sort (events_list st);
     window_size := window_size st;
     events_size := events_size st;
     sorted := sorted st |}.

(** [update(timestamp, event_level)]. *)
Definition update (st : State) (timestamp event_level : Z) : State :=
  if bool_decide (0 < length (events_list st))%nat && (event_level =? 0)
  then st
  else
    let sorted' :=
      if sorted st && bool_decide (0 < length (events_list st))%nat then
        match last (events_list st) with
        | Some back =>
            if back.1 =? timestamp then back.2 <=? event_level
            else back.1 <=? timestamp
        | None => sorted st
        end
      else sorted st in
    {| events_list := events_list st ++ [(timestamp, event_level)];
       window_size := window_size st;
       events_size := events_size st;
       sorted := sorted' |}.

(** The loop of [deserialize_and_merge] over [datum_array] from index 2:
    it runs while [i < size - 1], that is while two more elements are
    left, and steps by two. *)
Fixpoint read_pairs (tail : DatumArray) : list TimestampEvent :=
  match tail with
  | timestamp :: event_level :: rest =>
      (to_time timestamp, to_uint8 event_level) :: read_pairs rest
  | _ => []
  end.

(** The locals [events_size], [other_sorted] and [other_list] that
    [deserialize_and_merge] reads from a non-empty [datum_array]. Reading
    [datum_array[1]] of a one-element array is out of range: [None]. *)
Definition decode (datum_array : DatumArray)
  : option (Z * bool * list TimestampEvent) :=
  match datum_array with
  | d0 :: d1 :: tail =>
      Some (to_uint8 d0, uint8_to_bool d1, read_pairs tail)
  | _ => None
  end.

(** The merging part of [deserialize_and_merge], after [other_list] has
    been appended: [size] is the length of the local list before the
    append, [take size] is the range from [begin] to [middle] and
    [drop size] the range from [middle] to [end]. The sorts are given
    [ComparePairFirst], the merge uses [operator<] of the pairs: the same
    order. *)
Definition merge_runs (sorted other_sorted : bool) (size : nat)
    (combined : list TimestampEvent) : list TimestampEvent :=
  if negb sorted && negb other_sorted then std_sort combined
  else
    let first := take size combined in
    let second := drop size combined in
    let first := if negb sorted then std_stable_sort first else first in
    let second :=
      if negb other_sorted then std_stable_sort second else second in
    std_inplace_merge first second.

(** [deserialize_and_merge(ctx, datum_array)]; [window] is the constant
    read from the function context. *)
Definition deserialize_and_merge (window : Z) (st : State)
    (datum_array : DatumArray) : option State :=
  if bool_decide (length datum_array = 0%nat) then Some st
  else
    '(events, other_sorted, other_list) ← decode datum_array;
    let size := length (events_list st) in
    let combined := events_list st ++ other_list in
    Some {| events_list := merge_runs (sorted st) other_sorted size combined;
            window_size := window;
            events_size := events;
            sorted := true |}.

(** [serialize_to_array_column]: the array column is the list of the
    [DatumArray]s appended so far. Nothing is appended for an empty
    state. [encode_pairs] is the loop over [events_list]. *)
Definition encode_pairs (l : list TimestampEvent) : DatumArray :=
  flat_map (λ e, [e.1; e.2]) l.

(** The local [array] that [serialize_to_array_column] fills: the two
    header scalars, then timestamp and event position of every pair. *)
Definition datum_array_of (st : State) : DatumArray :=
  events_size st :: bool_to_int64 (sorted st)
    :: encode_pairs (events_list st).

Definition serialize_to_array_column (array_column : list DatumArray)
    (st : State) : list DatumArray :=
  if bool_decide (events_list st = []) then array_column
  else array_column ++ [datum_array_of st].

(** *** Evaluation *)

(** What one pass of the scanning loop of [get_event_level] does: go on
    with the updated [events_timestamp], return early, or touch
    [events_timestamp] outside its bounds. *)
Inductive scan_result : Type :=
  | Continue (events_timestamp : list Z)
  | Return (level : Z)
  | OutOfRange.

(** Body of the scanning loop for the element [(timestamp, event_idx)].
    [event_idx -= 1] is reached with [event_idx] different from 0 only, so
    the [uint8_t] does not wrap. The sum of the window check is a sum of
    two [int64_t] and wraps around. *)
Definition scan_step (window events : Z) (events_timestamp : list Z)
    (e : TimestampEvent) : scan_result :=
  let timestamp := e.1 in
  let event_idx := e.2 in
  if event_idx =? 0 then Continue events_timestamp
  else
    let event_idx := event_idx - 1 in
    if event_idx =? 0 then
      match events_timestamp !! 0%nat with
      | Some _ => Continue (<[0%nat := timestamp]> events_timestamp)
      | None => OutOfRange
      end
    else
      match events_timestamp !! Z.to_nat (event_idx - 1) with
      | None => OutOfRange
      | Some start =>
          if (0 <=? start) && (timestamp <=? to_time (start + window)) then
            match events_timestamp !! Z.to_nat event_idx with
            | None => OutOfRange
            | Some _ =>
                if event_idx + 1 =? events then Return events
                else
                  Continue (<[Z.to_nat event_idx := start]> events_timestamp)
            end
          else Continue events_timestamp
      end.

(** The scanning loop over [events_list]. *)
Fixpoint scan (window events : Z) (events_timestamp : list Z)
    (l : list TimestampEvent) : scan_result :=
  match l with
  | [] => Continue events_timestamp
  | e :: l' =>
      match scan_step window events events_timestamp e with
      | Continue events_timestamp' => scan window events events_timestamp' l'
      | r => r
      end
  end.

(** The closing loop, counting [event] down from the size of
    [events_timestamp]. *)
Fixpoint last_reached (events_timestamp : list Z) (event : nat)
  : option Z :=
  match event with
  | O => Some 0
  | S event' =>
      start ← events_timestamp !! event';
      if 0 <=? start then Some (Z.of_nat event)
      else last_reached events_timestamp event'
  end.

(** The list the scanning loop of [get_event_level] runs over: the event
    list, sorted first when the flag is off. *)
Definition scanned_events (st : State) : list TimestampEvent :=
  if sorted st then events_list st else events_list (sort st).

(** [get_event_level()]; [None] when an access to [events_timestamp] is
    out of range. *)
Definition get_event_level (st : State) : option Z :=
  let events_timestamp := replicate (Z.to_nat (events_size st)) (-1) in
  match scan (window_size st) (events_size st) events_timestamp
          (scanned_events st) with
  | Continue events_timestamp' =>
      last_reached events_timestamp' (length events_timestamp')
  | Return level => Some level
  | OutOfRange => None
  end.

End WindowFunnelState.

Module WindowFunnelAggregateFunction.
Import WindowFunnelState.

(** [update(ctx, columns, state, row_num)], for a row whose timestamp is
    [tv] and whose condition array has [conditions] entries, the first
    true one at position [event_level] (0 when there is none): the window
    constant and the array size are stored, then the state is updated. *)
Definition update (window : Z) (conditions : Z) (st : State)
    (row : TimestampEvent) : State :=
  let st := {| events_list := events_list st;
               window_size := window;
               events_size := to_uint8 conditions;
               sorted := sorted st |} in
  WindowFunnelState.update st row.1 row.2.

(** [merge]: one row of the intermediate array column is merged into the
    state. *)
Definition merge (window : Z) (st : State) (ele_vector : DatumArray)
  : option State :=
  deserialize_and_merge window st ele_vector.

(** [serialize_to_column]. *)
Definition serialize_to_column (st : State) (to : list DatumArray)
  : list DatumArray :=
  serialize_to_array_column to st.

(** [finalize_to_column]. *)
Definition finalize_to_column (st : State) : option Z :=
  get_event_level st.

(** The [DatumArray] that [convert_to_serialize_format] appends for one
    row: the flag is always off. *)
Definition convert_row (conditions : Z) (row : TimestampEvent)
  : DatumArray :=
  [conditions; bool_to_int64 false; row.1; row.2].

End WindowFunnelAggregateFunction.

Import WindowFunnelState.

(** ** The update rule in the words of its description

    A second definition of [update], written from its description: a no-op
    on a non-empty log when the step index is 0; otherwise the flag is
    cleared when it was set, the log is non-empty and the new pair is
    strictly less than the last one, and the pair is appended. It is
    compared with the embedded [update] in [update_refines_description]. *)
Definition strictly_below_last (l : list TimestampEvent) (e : TimestampEvent)
  : bool :=
  match last l with
  | Some back => bool_decide (pair_lt e back)
  | None => false
  end.

Definition update_described (st : State) (timestamp step_index : Z) : State :=
  if bool_decide (events_list st ≠ [] ∧ step_index = 0) then st
  else
    {| events_list := events_list st ++ [(timestamp, step_index)];
       window_size := window_size st;
       events_size := events_size st;
       sorted :=
         if sorted st && strictly_below_last (events_list st)
                             (timestamp, step_index)
         then false else sorted st |}.

(** ** States whose fields fit their C++ types *)
Definition well_typed_event (e : TimestampEvent) : Prop :=
  is_int64 e.1 ∧ is_uint8 e.2.

Definition well_typed (st : State) : Prop :=
  is_uint8 (events_size st) ∧ Forall well_typed_event (events_list st).

(** ** The host's loops *)

(** The host runs the aggregate function over rows and columns: the rows
    of one worker go through [update] one after the other, the states of
    the workers are serialized into one array column, and the rows of that
    column are merged one after the other into the receiving state. *)
Definition update_rows (window conditions : Z) (st : State)
    (rows : list TimestampEvent) : State :=
  foldl (WindowFunnelAggregateFunction.update window conditions) st rows.

Definition serialize_states (sts : list State) : list DatumArray :=
  foldl (λ to st, WindowFunnelAggregateFunction.serialize_to_column st to)
        [] sts.

Fixpoint merge_rows (window : Z) (st : State) (rows : list DatumArray)
  : option State :=
  match rows with
  | [] => Some st
  | ele_vector :: rows =>
      st' ← WindowFunnelAggregateFunction.merge window st ele_vector;
      merge_rows window st' rows
  end.

(** The state of a worker that has seen [rows], starting from a fresh
    state. *)
Definition partial_log (window conditions window0 events0 : Z)
    (rows : list TimestampEvent) : State :=
  update_rows window conditions (fresh window0 events0) rows.

(** ** Vocabulary of the properties *)

(** The flag does not lie: when it is set the list is non-decreasing. *)
Definition flag_honest (flag : bool) (l : list TimestampEvent) : Prop :=
  flag = true → Sorted pair_le l.

(** Two pairs neither of which is less than the other. *)
Definition equivalent (x y : TimestampEvent) : Prop :=
  pair_le x y ∧ pair_le y x.

Global Instance equivalent_dec : RelDecision equivalent.
Proof. intros x y. unfold equivalent. apply _. Defined.

(** The states a log goes through: it starts empty, and is changed by
    [update] (directly or through the aggregate function), by the sort that
    [get_event_level] performs on the mutable list, and by merging arrays
    whose flag is honest about the pairs they carry. *)
Definition honest_array (datum_array : DatumArray) : Prop :=
  ∀ events flag l,
    decode datum_array = Some (events, flag, l) → flag_honest flag l.

Inductive reachable : State → Prop :=
  | reachable_fresh window events : reachable (fresh window events)
  | reachable_update st timestamp event_level :
      reachable st → reachable (update st timestamp event_level)
  | reachable_row window conditions st row :
      reachable st →
      reachable (WindowFunnelAggregateFunction.update window conditions st row)
  | reachable_sort st : reachable st → reachable (sort st)
  | reachable_merge window st datum_array st' :
      reachable st → honest_array datum_array →
      deserialize_and_merge window st datum_array = Some st' →
      reachable st'.

(** An event position between 0 and the number of events. *)
Definition step_in_range (events : Z) (e : TimestampEvent) : Prop :=
  0 ≤ e.2 ≤ events.

(** Every entry of [events_timestamp] is the initial -1 or the timestamp
    of a step-1 element met before. *)
Definition holds_starts (seen : list TimestampEvent) (ts : list Z) : Prop :=
  ∀ i x, ts !! i = Some x → x = -1 ∨ (x, 1) ∈ seen.

(** A step-1 element with a negative timestamp. *)
Definition negative_start (e : TimestampEvent) : Prop := e.1 < 0 ∧ e.2 = 1.

Global Instance negative_start_dec e : Decision (negative_start e).
Proof. unfold negative_start. apply _. Defined.

Definition without_negative_starts (l : list TimestampEvent)
  : list TimestampEvent :=
  filter (λ e, ¬ negative_start e) l.

(** Two entries of [events_timestamp] that the code cannot tell apart:
    the same value, or two negative (hence unset) values. *)
Definition same_entry (x y : Z) : Prop := x = y ∨ (x < 0 ∧ y < 0).

Definition same_result (r1 r2 : scan_result) : Prop :=
  match r1, r2 with
  | Continue ts1, Continue ts2 => Forall2 same_entry ts1 ts2
  | Return v1, Return v2 => v1 = v2
  | OutOfRange, OutOfRange => True
  | _, _ => False
  end.

(** The elements the scan looks at: those with a step index other than
    0. *)
Definition matched (l : list TimestampEvent) : list TimestampEvent :=
  filter (λ e, e.2 ≠ 0) l.

(** Only the states that hold an element leave an array in the column. *)
Definition holds_events (st : State) : Prop := events_list st ≠ [].

Global Instance holds_events_dec st : Decision (holds_events st).
Proof. unfold holds_events. apply _. Defined.

(** A state as a worker hands it over. *)
Definition handed_over (conditions : Z) (st : State) : Prop :=
  well_typed st ∧ flag_honest (sorted st) (events_list st)
  ∧ events_size st = to_uint8 conditions.

(** ** Rows as the aggregate function reads them

    The part of [WindowFunnelAggregateFunction] that looks at the condition
    array of a row. An element of the array is a [Datum]: null ([None]) or
    a [uint8_t]. *)
Module Rows.

(** A row: its timestamp and its condition array. *)
Definition Row : Type := Z * list (option Z).

(** [!ele_vector[i].is_null() && ele_vector[i].get_uint8() > 0]. *)
Definition condition_holds (datum : option (option Z)) : bool :=
  match datum with
  | Some (Some v) => 0 <? v
  | _ => false
  end.

(** The loop that finds the event position, in [update] and in
    [convert_to_serialize_format]: the counter [i] is a [uint8_t], compared
    with the size of the array and incremented modulo 2^8; at the first
    entry that holds, [event_level = i + 1] is stored in a [uint8_t] and
    the loop is left. [fuel] bounds the number of passes; [None] is a loop
    that has not come to its end within [fuel] passes. *)
Fixpoint event_level_loop (fuel : nat) (ele_vector : list (option Z))
    (i : Z) : option Z :=
  match fuel with
  | O => None
  | S fuel' =>
      if bool_decide (i < Z.of_nat (length ele_vector)) then
        if condition_holds (ele_vector !! Z.to_nat i)
        then Some (to_uint8 (i + 1))
        else event_level_loop fuel' ele_vector (to_uint8 (i + 1))
      else Some 0
  end.

(** [update(ctx, columns, state, row_num)] on a row given with its
    condition array. *)
Definition update (fuel : nat) (window : Z) (st : State) (row : Row)
  : option State :=
  event_level ← event_level_loop fuel row.2 0;
  Some (WindowFunnelAggregateFunction.update window
          (Z.of_nat (length row.2)) st (row.1, event_level)).

(** The host's loop over the rows of a chunk. *)
Fixpoint update_chunk (fuel : nat) (window : Z) (st : State)
    (rows : list Row) : option State :=
  match rows with
  | [] => Some st
  | row :: rows =>
      st' ← update fuel window st row;
      update_chunk fuel window st' rows
  end.

(** One pass of the loop of [convert_to_serialize_format]: the array
    appended for a row. The size of the condition array is stored as it
    is, in an [int64_t]. *)
Definition convert (fuel : nat) (row : Row) : option DatumArray :=
  event_level ← event_level_loop fuel row.2 0;
  Some (WindowFunnelAggregateFunction.convert_row
          (Z.of_nat (length row.2)) (row.1, event_level)).

(** [convert_to_serialize_format(ctx, src, chunk_size, dst)]. *)
Definition convert_to_serialize_format (fuel : nat) (src : list Row)
    (dst : list DatumArray) : option (list DatumArray) :=
  arrays ← mapM (convert fuel) src;
  Some (dst ++ arrays).

(** The 1-based position of the first entry that holds, counted from
    [pos]; 0 when no entry holds. *)
Fixpoint first_match (pos : Z) (ele_vector : list (option Z)) : Z :=
  match ele_vector with
  | [] => 0
  | datum :: rest =>
      if condition_holds (Some datum) then pos else first_match (pos + 1) rest
  end.

(** The event position of a row. *)
Definition event_of (row : Row) : TimestampEvent :=
  (row.1, first_match 1 row.2).

End Rows.

(** Rows whose condition arrays have [conditions] entries. *)
Definition sized (conditions : nat) (rows : list Rows.Row) : Prop :=
  Forall (λ row : Rows.Row, length row.2 = conditions) rows.

(** Comparing two entries of [events_timestamp]: [x] is unset, or set to
    a start that is not later than [y]. *)
Definition no_later (x y : Z) : Prop := x < 0 ∨ x ≤ y.

(** The start held for a step is not later than the start held for the
    step before. *)
Definition starts_descend (ts : list Z) : Prop :=
  ∀ (i : nat) x y, ts !! i = Some x → ts !! S i = Some y → no_later y x.

(** The starts held are not later than the timestamps still to come. *)
Definition starts_before (ts : list Z) (l : list TimestampEvent) : Prop :=
  ∀ (i : nat) x, ts !! i = Some x → Forall (λ e, no_later x e.1) l.

(** The outcomes of two scans of one list, the second with the wider
    window: the second has returned early, or both go on and the second
    holds a start wherever the first does, and no earlier one. *)
Definition wider_outcome (r r' : scan_result) : Prop :=
  match r, r' with
  | Continue ts, Continue ts' => Forall2 no_later ts ts'
  | Continue _, Return _ => True
  | Return _, Return _ => True
  | _, _ => False
  end.

(** The elements of [seen] hold a chain over the first [steps] steps that
    starts at [start]: a step-1 element with the timestamp [start] and, for
    each later step up to [steps], an element no later than
    [start + window]. *)
Definition chain_in (window : Z) (seen : list TimestampEvent)
    (start steps : Z) : Prop :=
  (start, 1) ∈ seen
  ∧ ∀ step, 2 ≤ step ≤ steps →
            ∃ timestamp, (timestamp, step) ∈ seen
                         ∧ timestamp ≤ start + window.

(** Every start held in [events_timestamp] comes with its chain. *)
Definition starts_witnessed (window : Z) (seen : list TimestampEvent)
    (ts : list Z) : Prop :=
  ∀ (i : nat) x,
    ts !! i = Some x → 0 ≤ x → chain_in window seen x (Z.of_nat i + 1).

(** A chain in time order: [chain] lists the timestamps of elements of
    [l] at the steps 1, 2, ..., none earlier than the one before, the first
    one non-negative and all of them within the window after the first. *)
Definition ordered_chain (window : Z) (l : list TimestampEvent)
    (chain : list Z) : Prop :=
  (∀ (j : nat) t, chain !! j = Some t → (t, Z.of_nat j + 1) ∈ l)
  ∧ (∀ (i j : nat) s t,
       (i ≤ j)%nat → chain !! i = Some s → chain !! j = Some t → s ≤ t)
  ∧ (∀ start (j : nat) t,
       chain !! 0%nat = Some start → chain !! j = Some t →
       0 ≤ start ∧ t ≤ start + window).

(** Once the first [j + 1] elements of the chain have been scanned, the
    entry at index [j] holds a start that is not earlier than the start of
    the chain. *)
Definition chain_followed (chain : list Z) (seen : list TimestampEvent)
    (ts : list Z) : Prop :=
  ∀ (j : nat) start,
    chain !! 0%nat = Some start →
    (∀ (i : nat) t, (i ≤ j)%nat → chain !! i = Some t →
                    (t, Z.of_nat i + 1) ∈ seen) →
    (j < length chain)%nat →
    ∃ x, ts !! j = Some x ∧ start ≤ x.

(** The window added to a non-negative timestamp of [l] stays within
    [int64_t]: the sum of the window check does not wrap for a start taken
    from [l]. *)
Definition window_fits (window : Z) (l : list TimestampEvent) : Prop :=
  Forall (λ e : TimestampEvent, 0 ≤ e.1 → is_int64 (e.1 + window)) l.

(** The same of the starts held in [events_timestamp]. *)
Definition starts_fit (window : Z) (ts : list Z) : Prop :=
  ∀ (i : nat) x, ts !! i = Some x → 0 ≤ x → is_int64 (x + window).

(** The state that [get_event_level] leaves behind: the mutable list has
    been sorted when the flag was off. *)
Definition after_get_event_level (st : State) : State :=
  if sorted st then st else sort st.

(** * Properties *)

(** ** The order on pairs *)

Lemma pair_le_iff x y :
  pair_le x y ↔ x.1 < y.1 ∨ (x.1 = y.1 ∧ x.2 ≤ y.2).
Proof. unfold pair_le, pair_lt. lia. Qed.

Global Instance pair_le_refl : Reflexive pair_le.
Proof. intros x. rewrite pair_le_iff. lia. Qed.

Global Instance pair_le_trans : Transitive pair_le.
Proof. intros x y z. rewrite !pair_le_iff. lia. Qed.

Global Instance pair_le_total : Total pair_le.
Proof. intros x y. rewrite !pair_le_iff. lia. Qed.

Global Instance pair_le_antisymm : AntiSymm (=) pair_le.
Proof.
  intros [x1 x2] [y1 y2]. rewrite !pair_le_iff. simpl.
  intros ? ?. f_equal; lia.
Qed.

(** A range has one non-decreasing rearrangement only. *)
Lemma sorted_permutation_unique (l1 l2 : list TimestampEvent) :
  Sorted pair_le l1 → Sorted pair_le l2 → l1 ≡ₚ l2 → l1 = l2.
Proof. apply Sorted_unique; apply _. Qed.

Lemma std_stable_sort_sorted l : Sorted pair_le (std_stable_sort l).
Proof. apply Sorted_merge_sort, _. Qed.

Lemma std_stable_sort_perm l : std_stable_sort l ≡ₚ l.
Proof. apply merge_sort_Permutation. Qed.

Lemma std_sort_sorted l : Sorted pair_le (std_sort l).
Proof. apply Sorted_merge_sort, _. Qed.

Lemma std_sort_perm l : std_sort l ≡ₚ l.
Proof. apply merge_sort_Permutation. Qed.

(** Whatever sorting algorithm is run on a range, its result is the one of
    the model. *)
Lemma std_sort_characterised l l' :
  Sorted pair_le l' → l' ≡ₚ l → l' = std_sort l.
Proof.
  intros Hs Hp. apply sorted_permutation_unique; [done|apply std_sort_sorted|].
  by rewrite Hp, std_sort_perm.
Qed.

Lemma std_stable_sort_id l : Sorted pair_le l → std_stable_sort l = l.
Proof.
  intros Hs. symmetry. by apply (std_sort_characterised l l).
Qed.

Lemma std_inplace_merge_sorted l1 l2 :
  Sorted pair_le l1 → Sorted pair_le l2 →
  Sorted pair_le (std_inplace_merge l1 l2).
Proof. apply Sorted_list_merge, _. Qed.

Lemma std_inplace_merge_perm l1 l2 : std_inplace_merge l1 l2 ≡ₚ l1 ++ l2.
Proof. apply merge_Permutation. Qed.

(** ** update *)

Lemma update_eq_described st timestamp event_level :
  update st timestamp event_level = update_described st timestamp event_level.
Proof.
  destruct st as [l w n s].
  unfold update, update_described, strictly_below_last.
  cbn [events_list window_size events_size sorted].
  destruct l as [|x l _] using rev_ind.
  - rewrite (bool_decide_eq_false_2 (_ ∧ _)) by (intros [? _]; done).
    rewrite (bool_decide_eq_false_2 (_ < _)%nat) by (simpl; lia).
    simpl. by rewrite !andb_false_r.
  - rewrite last_snoc.
    rewrite (bool_decide_eq_true_2 (_ < _)%nat)
      by (rewrite length_app; simpl; lia).
    destruct (Z.eqb_spec event_level 0) as [->|Hl]; simpl.
    + rewrite bool_decide_eq_true_2; [done|].
      split; [by destruct l|done].
    + rewrite (bool_decide_eq_false_2 (_ ∧ _)) by (intros [_ ?]; done).
      f_equal. destruct s; simpl; [|done].
      destruct x as [bt bl]. unfold pair_lt. simpl.
      destruct (Z.eqb_spec bt timestamp) as [->|Ht].
      * destruct (Z.leb_spec bl event_level).
        -- rewrite bool_decide_eq_false_2; [done|lia].
        -- rewrite bool_decide_eq_true_2; [done|lia].
      * destruct (Z.leb_spec bt timestamp).
        -- rewrite bool_decide_eq_false_2; [done|lia].
        -- rewrite bool_decide_eq_true_2; [done|lia].
Qed.

(** C7. [update] does what its description says: called with step index 0
    on a non-empty log it changes nothing; in every other case the pair is
    appended, and the flag is cleared exactly when it was set, the log was
    non-empty and the new pair is strictly less (in the order on
    (timestamp, step index)) than the last pair of the log. In particular
    the log holding (0, 1) is left as it is by the update (5, 0). *)
Theorem update_refines_description :
  (∀ st timestamp event_level,
     update st timestamp event_level
     = update_described st timestamp event_level) ∧
  (∀ window events flag,
     update (mkState [(0, 1)] window events flag) 5 0
     = mkState [(0, 1)] window events flag).
Proof. split; [apply update_eq_described|done]. Qed.

(** ** The codec *)

Lemma to_uint8_id z : is_uint8 z → to_uint8 z = z.
Proof. intros ?. apply Z.mod_small. done. Qed.

Lemma to_time_id z : is_int64 z → to_time z = z.
Proof.
  unfold is_int64, to_time. intros ?. rewrite Z.mod_small; lia.
Qed.

Lemma uint8_to_bool_of_bool b : uint8_to_bool (bool_to_int64 b) = b.
Proof. by destruct b. Qed.

Lemma read_pairs_encode_pairs l :
  Forall well_typed_event l → read_pairs (encode_pairs l) = l.
Proof.
  induction 1 as [|[t lvl] l [Ht Hl] _ IH]; [done|].
  simpl in *. by rewrite IH, to_time_id, to_uint8_id.
Qed.

(** Reading back the array built from a state. *)
Lemma decode_datum_array_of st :
  well_typed st →
  decode (datum_array_of st)
  = Some (events_size st, sorted st, events_list st).
Proof.
  intros [Hn Hl]. unfold decode, datum_array_of.
  by rewrite to_uint8_id, uint8_to_bool_of_bool, read_pairs_encode_pairs.
Qed.

(** An element left over after the last complete pair is not read. *)
Lemma read_pairs_unpaired n : ∀ tail x,
  length tail = (2 * n)%nat → read_pairs (tail ++ [x]) = read_pairs tail.
Proof.
  induction n as [|n IH]; intros tail x Hlen.
  - by destruct tail.
  - destruct tail as [|a [|b tail]]; simpl in Hlen; try lia.
    simpl. f_equal. apply IH. lia.
Qed.

(** C3 (as the code has it). No decoding error exists: when the part of the
    array after the two header scalars has odd length, its last element is
    left unread and the array is merged exactly as the array without that
    element is, and a merged state is produced. *)
Theorem odd_tail_last_element_ignored window st d0 d1 tail x :
  Nat.Even (length tail) →
  deserialize_and_merge window st (d0 :: d1 :: tail ++ [x])
  = deserialize_and_merge window st (d0 :: d1 :: tail)
  ∧ is_Some (deserialize_and_merge window st (d0 :: d1 :: tail ++ [x])).
Proof.
  intros [n Hn]. unfold deserialize_and_merge, decode.
  rewrite !bool_decide_eq_false_2 by done.
  rewrite (read_pairs_unpaired n) by done. simpl. eauto.
Qed.

Lemma odd_tail_last_element_ignored_witness :
  deserialize_and_merge 3600 (fresh 3600 3) ([3; 1] ++ [7; 1] ++ [9])
  = deserialize_and_merge 3600 (fresh 3600 3) ([3; 1] ++ [7; 1]).
Proof.
  apply (odd_tail_last_element_ignored 3600 (fresh 3600 3) 3 1 [7; 1] 9).
  exists 1%nat. reflexivity.
Defined.

(** C3 (as stated) fails: an array with a tail of three elements after the
    header is decoded and merged; the unpaired 9 is dropped. *)
Lemma odd_tail_is_merged :
  Nat.Odd (length (drop 2 [3; 1; 7; 1; 9])) ∧
  deserialize_and_merge 3600 (fresh 3600 3) [3; 1; 7; 1; 9]
  = Some (mkState [(7, 1)] 3600 3 true).
Proof. split; [by exists 1%nat|]. vm_compute. reflexivity. Qed.

(** C4. Round trip: the array built from a state reads back as that
    state's event count, flag and event list; for an empty state nothing is
    appended to the column, and merging an empty array leaves the receiving
    state as it is. *)
Theorem serialize_decode_round_trip st array_column :
  well_typed st →
  decode (datum_array_of st)
  = Some (events_size st, sorted st, events_list st)
  ∧ serialize_to_array_column array_column st
    = (if bool_decide (events_list st = []) then array_column
       else array_column ++ [datum_array_of st])
  ∧ (∀ window st', deserialize_and_merge window st' [] = Some st').
Proof.
  intros Hst. split; [by apply decode_datum_array_of|done].
Qed.

Lemma serialize_decode_round_trip_witness :
  decode (datum_array_of (mkState [(5, 2); (3, 1)] 3600 3 false))
  = Some (3, false, [(5, 2); (3, 1)]).
Proof.
  apply (serialize_decode_round_trip
           (mkState [(5, 2); (3, 1)] 3600 3 false) []).
  split; [unfold is_uint8; simpl; lia|].
  repeat constructor; simpl; lia.
Defined.

(** ** Evaluation: the scanning loop *)

Lemma scan_app window events l1 : ∀ events_timestamp l2,
  scan window events events_timestamp (l1 ++ l2)
  = match scan window events events_timestamp l1 with
    | Continue events_timestamp' => scan window events events_timestamp' l2
    | r => r
    end.
Proof.
  induction l1 as [|e l1 IH]; intros ts l2; simpl; [done|].
  destruct (scan_step window events ts e); auto.
Qed.

(** One pass never changes the size of [events_timestamp]. *)
Lemma scan_step_length window events ts e ts' :
  scan_step window events ts e = Continue ts' → length ts' = length ts.
Proof.
  unfold scan_step. intros Hstep.
  repeat case_match; simplify_eq; rewrite ?length_insert; done.
Qed.

Lemma scan_length window events l : ∀ ts ts',
  scan window events ts l = Continue ts' → length ts' = length ts.
Proof.
  induction l as [|e l IH]; intros ts ts' Hscan; simpl in Hscan.
  - by simplify_eq.
  - destruct (scan_step window events ts e) as [ts1| |] eqn:Hstep; try done.
    rewrite (IH _ _ Hscan). by eapply scan_step_length.
Qed.

(** The pass for an element at step [idx + 1], [idx >= 1], whose window
    check passes. *)
Lemma scan_step_extend window events ts timestamp idx start :
  1 ≤ idx →
  ts !! Z.to_nat (idx - 1) = Some start →
  (Z.to_nat idx < length ts)%nat →
  0 ≤ start → timestamp ≤ to_time (start + window) →
  scan_step window events ts (timestamp, idx + 1)
  = if idx + 1 =? events then Return events
    else Continue (<[Z.to_nat idx := start]> ts).
Proof.
  intros Hidx Hstart Hlen H0 Hw. unfold scan_step. simpl.
  rewrite (proj2 (Z.eqb_neq (idx + 1) 0)) by lia.
  replace (idx + 1 - 1) with idx by lia.
  rewrite (proj2 (Z.eqb_neq idx 0)) by lia.
  rewrite Hstart.
  rewrite (proj2 (Z.leb_le 0 start)), (proj2 (Z.leb_le timestamp _)) by done.
  simpl. destruct (lookup_lt_is_Some_2 ts _ Hlen) as [x ->]. done.
Qed.

(** The pass for an element at step [idx + 1], [idx >= 1], whose window
    check fails: nothing is stored. *)
Lemma scan_step_outside window events ts timestamp idx start :
  1 ≤ idx →
  ts !! Z.to_nat (idx - 1) = Some start →
  start < 0 ∨ to_time (start + window) < timestamp →
  scan_step window events ts (timestamp, idx + 1) = Continue ts.
Proof.
  intros Hidx Hstart Hfail. unfold scan_step. simpl.
  rewrite (proj2 (Z.eqb_neq (idx + 1) 0)) by lia.
  replace (idx + 1 - 1) with idx by lia.
  rewrite (proj2 (Z.eqb_neq idx 0)) by lia.
  rewrite Hstart.
  destruct (Z.leb_spec 0 start); [|done].
  destruct (Z.leb_spec timestamp (to_time (start + window))); [lia|done].
Qed.

(** Within [int64_t] the sum of the window check is the sum of the
    integers; a sum of a non-negative start and a window of type
    [int64_t] can only wrap downwards. *)
Lemma to_time_le z : - 2 ^ 63 ≤ z → to_time z ≤ z.
Proof.
  intros Hz. unfold to_time.
  pose proof (Z.mod_le (z + 2 ^ 63) (2 ^ 64) ltac:(lia) ltac:(lia)). lia.
Qed.

Lemma scan_step_holds_starts window events seen ts e ts' :
  holds_starts seen ts →
  scan_step window events ts e = Continue ts' →
  holds_starts (seen ++ [e]) ts'.
Proof.
  intros Hts Hstep.
  assert (Hmono : holds_starts (seen ++ [e]) ts).
  { intros i x Hx. destruct (Hts i x Hx); [by left|right].
    apply elem_of_app. by left. }
  unfold scan_step in Hstep. destruct e as [t s]. simpl in Hstep.
  repeat case_match; simplify_eq; try done.
  - intros i x Hx. destruct (decide (i = 0%nat)) as [->|Hne].
    + rewrite list_lookup_insert_eq in Hx by (by eapply lookup_lt_Some).
      simplify_eq. right. apply elem_of_app. right.
      assert (s = 1) as -> by lia. by apply list_elem_of_singleton.
    + rewrite list_lookup_insert_ne in Hx by done. by eapply Hmono.
  - intros i x Hx.
    match type of Hx with
    | <[?j := _]> _ !! _ = _ => destruct (decide (i = j)) as [->|Hne]
    end.
    + rewrite list_lookup_insert_eq in Hx by (by eapply lookup_lt_Some).
      simplify_eq. by eapply Hmono.
    + rewrite list_lookup_insert_ne in Hx by done. by eapply Hmono.
Qed.

Lemma scan_holds_starts window events l : ∀ seen ts ts',
  holds_starts seen ts →
  scan window events ts l = Continue ts' →
  holds_starts (seen ++ l) ts'.
Proof.
  induction l as [|e l IH]; intros seen ts ts' Hts Hscan; simpl in Hscan.
  - simplify_eq. by rewrite app_nil_r.
  - destruct (scan_step window events ts e) as [ts1| |] eqn:Hstep; try done.
    rewrite (assoc_L (++) seen [e] l : seen ++ e :: l = (seen ++ [e]) ++ l).
    eapply IH; [|done]. by eapply scan_step_holds_starts.
Qed.

(** C2. An element at step [idx + 1], [idx >= 1], that extends a chain
    (the start found at [idx - 1] is set and the element is no later than
    that start plus the window, the sum taken in [int64_t] as the code
    takes it) stores the start timestamp found at [idx - 1], not its own
    timestamp; an element later than that leaves [events_timestamp] as it
    is. The entries of [events_timestamp] are therefore always step-1
    timestamps (or the initial -1), and every window check is against the
    step-1 time of the chain. For three events, window 3600 and the sorted
    elements (0,1), (1000,2), (5000,3) the level is 2; it is 2 also for
    (0,1), (3000,2), (5000,3), where both gaps between neighbours are
    within the window. *)
Theorem chain_keeps_start_timestamp window events ts timestamp idx start :
  1 ≤ idx →
  ts !! Z.to_nat (idx - 1) = Some start →
  (Z.to_nat idx < length ts)%nat →
  0 ≤ start → timestamp ≤ to_time (start + window) →
  scan_step window events ts (timestamp, idx + 1)
  = (if idx + 1 =? events then Return events
     else Continue (<[Z.to_nat idx := start]> ts))
  ∧ (∀ later,
       to_time (start + window) < later →
       scan_step window events ts (later, idx + 1) = Continue ts)
  ∧ (∀ l ts',
       scan window events (replicate (Z.to_nat events) (-1)) l = Continue ts' →
       ∀ i x, ts' !! i = Some x → x = -1 ∨ (x, 1) ∈ l)
  ∧ get_event_level (mkState [(0, 1); (1000, 2); (5000, 3)] 3600 3 true)
    = Some 2
  ∧ get_event_level (mkState [(0, 1); (3000, 2); (5000, 3)] 3600 3 true)
    = Some 2.
Proof.
  intros Hidx Hstart Hlen H0 Hw. split; [by apply scan_step_extend|].
  split.
  { intros later Hlater. eapply scan_step_outside; [done|done|by right]. }
  split; [|split; by vm_compute].
  intros l ts' Hscan.
  apply (scan_holds_starts window events l []
           (replicate (Z.to_nat events) (-1)) ts'); [|done].
  intros i x Hx. apply lookup_replicate in Hx as [-> _]. by left.
Qed.

Lemma chain_keeps_start_timestamp_witness :
  scan_step 3600 3 [0; -1; -1] (1000, 1 + 1)
  = Continue [0; 0; -1].
Proof.
  apply (chain_keeps_start_timestamp 3600 3 [0; -1; -1] 1000 1 0);
    [lia|reflexivity|simpl; lia|lia|by vm_compute].
Defined.

(** ** Evaluation: bounds *)

Lemma scan_step_in_range window events ts e :
  length ts = Z.to_nat events →
  step_in_range events e →
  scan_step window events ts e = Return events
  ∨ ∃ ts', scan_step window events ts e = Continue ts'.
Proof.
  intros Hlen [Hlo Hhi]. unfold scan_step.
  destruct (Z.eqb_spec (e.2) 0) as [|Hnz]; [eauto|].
  destruct (Z.eqb_spec (e.2 - 1) 0) as [|Hnz'].
  - destruct (lookup_lt_is_Some_2 ts 0) as [x ->]; [lia|eauto].
  - destruct (lookup_lt_is_Some_2 ts (Z.to_nat (e.2 - 1 - 1))) as [x ->];
      [lia|].
    destruct (lookup_lt_is_Some_2 ts (Z.to_nat (e.2 - 1))) as [y ->]; [lia|].
    repeat case_match; eauto.
Qed.

Lemma scan_in_range window events l : ∀ ts,
  length ts = Z.to_nat events →
  Forall (step_in_range events) l →
  scan window events ts l = Return events
  ∨ ∃ ts', scan window events ts l = Continue ts'.
Proof.
  induction l as [|e l IH]; intros ts Hlen Hl; simpl; [eauto|].
  apply Forall_cons in Hl as [He Hl].
  destruct (scan_step_in_range window events ts e Hlen He)
    as [->|[ts' Hstep]]; [by left|].
  rewrite Hstep. apply IH; [|done].
  by rewrite (scan_step_length _ _ _ _ _ Hstep).
Qed.

Lemma last_reached_bounds ts : ∀ event,
  (event ≤ length ts)%nat →
  ∃ v, last_reached ts event = Some v ∧ 0 ≤ v ≤ Z.of_nat event.
Proof.
  induction event as [|event IH]; intros Hle; simpl.
  - exists 0. split; [done|lia].
  - destruct (lookup_lt_is_Some_2 ts event) as [x ->]; [lia|]. simpl.
    destruct (0 <=? x).
    + eexists. split; [done|lia].
    + destruct IH as (v & -> & ?); [lia|]. exists v. split; [done|lia].
Qed.

Lemma scanned_events_Forall (P : TimestampEvent → Prop) st :
  Forall P (events_list st) → Forall P (scanned_events st).
Proof.
  unfold scanned_events. destruct (sorted st); [done|]. simpl.
  intros H. by rewrite std_stable_sort_perm.
Qed.

(** C10. When every event position lies between 0 and [events_size], no
    access to [events_timestamp] is out of range, and [get_event_level]
    returns a value between 0 and [events_size]. *)
Theorem get_event_level_in_bounds st :
  is_uint8 (events_size st) →
  Forall (step_in_range (events_size st)) (events_list st) →
  scan (window_size st) (events_size st)
       (replicate (Z.to_nat (events_size st)) (-1)) (scanned_events st)
  ≠ OutOfRange
  ∧ ∃ level, get_event_level st = Some level ∧ 0 ≤ level ≤ events_size st.
Proof.
  intros Hn Hl. unfold get_event_level.
  pose proof (scanned_events_Forall _ st Hl) as Hl'.
  destruct (scan_in_range (window_size st) (events_size st)
              (scanned_events st) (replicate (Z.to_nat (events_size st)) (-1)))
    as [->|[ts' Hscan]]; [by rewrite length_replicate|done| |].
  - split; [done|]. exists (events_size st). unfold is_uint8 in Hn.
    split; [done|lia].
  - rewrite Hscan. split; [done|].
    pose proof (scan_length _ _ _ _ _ Hscan) as Hlen.
    rewrite length_replicate in Hlen.
    destruct (last_reached_bounds ts' (length ts')) as (v & -> & ?); [done|].
    exists v. split; [done|]. unfold is_uint8 in Hn. lia.
Qed.

Lemma get_event_level_in_bounds_witness :
  ∃ level,
    get_event_level (mkState [(7, 2); (3, 1); (9, 3); (3, 0)] 5 3 false)
    = Some level ∧ 0 ≤ level ≤ 3.
Proof.
  apply (get_event_level_in_bounds
           (mkState [(7, 2); (3, 1); (9, 3); (3, 0)] 5 3 false)).
  - unfold is_uint8. simpl. lia.
  - repeat constructor; simpl; lia.
Defined.

(** ** Evaluation: the early return *)

(** C6. When the scan meets an element at the last step [events_size]
    whose window check passes (the start of the step before is set and the
    element is no later than that start plus the window, the sum taken in
    [int64_t] as the code takes it), [get_event_level] returns
    [events_size] at once: the result is [events_size] whatever comes after
    that element, also when nothing does. *)
Theorem full_chain_returns_at_once st pre timestamp post ts start :
  scanned_events st = pre ++ (timestamp, events_size st) :: post →
  scan (window_size st) (events_size st)
       (replicate (Z.to_nat (events_size st)) (-1)) pre = Continue ts →
  2 ≤ events_size st →
  ts !! Z.to_nat (events_size st - 2) = Some start →
  0 ≤ start → timestamp ≤ to_time (start + window_size st) →
  get_event_level st = Some (events_size st)
  ∧ ∀ post',
      get_event_level
        (mkState (pre ++ (timestamp, events_size st) :: post')
                 (window_size st) (events_size st) true)
      = Some (events_size st).
Proof.
  intros Hev Hpre Hn Hstart H0 Hw.
  pose proof (scan_length _ _ _ _ _ Hpre) as Hlen.
  rewrite length_replicate in Hlen.
  assert (Hstep : scan_step (window_size st) (events_size st) ts
                    (timestamp, events_size st) = Return (events_size st)).
  { replace (events_size st) with ((events_size st - 1) + 1) at 2 by lia.
    rewrite (scan_step_extend _ _ _ _ _ start); try lia; try done.
    - by rewrite (proj2 (Z.eqb_eq _ _)) by lia.
    - by replace (events_size st - 1 - 1) with (events_size st - 2) by lia. }
  assert (Hall : ∀ rest,
    scan (window_size st) (events_size st)
      (replicate (Z.to_nat (events_size st)) (-1))
      (pre ++ (timestamp, events_size st) :: rest) = Return (events_size st)).
  { intros rest. rewrite scan_app, Hpre. simpl. by rewrite Hstep. }
  split.
  - unfold get_event_level. by rewrite Hev, Hall.
  - intros post'. unfold get_event_level, scanned_events. simpl.
    by rewrite Hall.
Qed.

Lemma full_chain_returns_at_once_witness :
  get_event_level
    (mkState [(0, 1); (1000, 2); (2000, 3); (2500, 1); (9000, 2)] 3600 3 true)
  = Some 3.
Proof.
  apply (full_chain_returns_at_once
           (mkState [(0, 1); (1000, 2); (2000, 3); (2500, 1); (9000, 2)]
                    3600 3 true)
           [(0, 1); (1000, 2)] 2000 [(2500, 1); (9000, 2)] [0; 0; -1] 0);
    [reflexivity|reflexivity|simpl; lia|reflexivity|lia|by vm_compute].
Defined.

(** ** Merging *)

Lemma equivalent_eq x y : equivalent x y → x = y.
Proof. intros [? ?]. by apply (anti_symm pair_le). Qed.

(** The elements equivalent to [x] are copies of [x]; their sequence is
    the same in every rearrangement. *)
Lemma filter_equivalent_perm x (l1 l2 : list TimestampEvent) :
  l1 ≡ₚ l2 → filter (equivalent x) l1 = filter (equivalent x) l2.
Proof.
  intros Hp.
  assert (Hrep : ∀ l : list TimestampEvent,
            replicate (length (filter (equivalent x) l)) x
            = filter (equivalent x) l).
  { intros l. apply replicate_as_Forall. split; [done|].
    apply Forall_forall. intros y [Hy _]%list_elem_of_filter.
    by apply equivalent_eq. }
  rewrite <-(Hrep l1), <-(Hrep l2). by rewrite Hp.
Qed.

Lemma merge_runs_app flag other_flag (l1 l2 : list TimestampEvent) :
  merge_runs flag other_flag (length l1) (l1 ++ l2)
  = if negb flag && negb other_flag then std_sort (l1 ++ l2)
    else std_inplace_merge
           (if flag then l1 else std_stable_sort l1)
           (if other_flag then l2 else std_stable_sort l2).
Proof.
  unfold merge_runs. rewrite take_app_length, drop_app_length.
  by destruct flag, other_flag.
Qed.

Lemma merge_runs_perm flag other_flag l1 l2 :
  merge_runs flag other_flag (length l1) (l1 ++ l2) ≡ₚ l1 ++ l2.
Proof.
  rewrite merge_runs_app.
  destruct flag, other_flag; simpl;
    rewrite ?std_sort_perm, ?std_inplace_merge_perm, ?std_stable_sort_perm;
    done.
Qed.

Lemma merge_runs_sorted flag other_flag l1 l2 :
  flag_honest flag l1 → flag_honest other_flag l2 →
  Sorted pair_le (merge_runs flag other_flag (length l1) (l1 ++ l2)).
Proof.
  intros H1 H2. rewrite merge_runs_app.
  destruct flag, other_flag; simpl;
    auto using std_sort_sorted, std_inplace_merge_sorted,
               std_stable_sort_sorted.
Qed.

Lemma deserialize_and_merge_decoded window st datum_array events flag l :
  decode datum_array = Some (events, flag, l) →
  deserialize_and_merge window st datum_array
  = Some (mkState
            (merge_runs (sorted st) flag (length (events_list st))
                        (events_list st ++ l))
            window events true).
Proof.
  intros Hdec. unfold deserialize_and_merge.
  destruct datum_array as [|d0 datum_array]; [done|].
  rewrite bool_decide_eq_false_2 by done. by rewrite Hdec.
Qed.

(** C5. Merging a decoded remote log into a local log (each flag honest
    about its list) gives a rearrangement of the local elements followed by
    the remote ones that is non-decreasing in the order on
    (timestamp, step index), with the flag set. When one of the two flags
    was set, the list is the stable merge of the two runs, a run being
    stable-sorted first only when its flag was off, and the elements that
    compare equal keep their order: those of the local run first, then
    those of the remote run. *)
Theorem merge_sorted_rearrangement window st datum_array events flag l :
  decode datum_array = Some (events, flag, l) →
  flag_honest (sorted st) (events_list st) →
  flag_honest flag l →
  ∃ st',
    deserialize_and_merge window st datum_array = Some st'
    ∧ events_list st' ≡ₚ events_list st ++ l
    ∧ Sorted pair_le (events_list st')
    ∧ sorted st' = true
    ∧ (sorted st || flag = true →
       events_list st'
       = std_inplace_merge
           (if sorted st then events_list st
            else std_stable_sort (events_list st))
           (if flag then l else std_stable_sort l)
       ∧ ∀ x, filter (equivalent x) (events_list st')
              = filter (equivalent x) (events_list st)
                ++ filter (equivalent x) l).
Proof.
  intros Hdec Hlocal Hremote. eexists.
  split; [by apply deserialize_and_merge_decoded|]. simpl.
  split; [apply merge_runs_perm|].
  split; [by apply merge_runs_sorted|].
  split; [done|].
  intros Hflag. split.
  - rewrite merge_runs_app.
    by destruct (sorted st), flag.
  - intros x. rewrite <-filter_app.
    apply filter_equivalent_perm, merge_runs_perm.
Qed.

Lemma merge_sorted_rearrangement_witness :
  ∃ st',
    deserialize_and_merge 3600 (mkState [(5, 2); (3, 1)] 3600 3 false)
                          [3; 1; 3; 1; 4; 2]
    = Some st'
    ∧ events_list st' ≡ₚ [(5, 2); (3, 1)] ++ [(3, 1); (4, 2)].
Proof.
  destruct (merge_sorted_rearrangement 3600
              (mkState [(5, 2); (3, 1)] 3600 3 false)
              [3; 1; 3; 1; 4; 2] 3 true [(3, 1); (4, 2)])
    as (st' & Hm & Hp & _).
  - reflexivity.
  - intros Hf. discriminate Hf.
  - intros _. repeat constructor; unfold pair_le, pair_lt; simpl; lia.
  - exists st'. split; [exact Hm|exact Hp].
Defined.

(** ** The flag is conservative *)

Lemma update_flag_honest st timestamp event_level :
  flag_honest (sorted st) (events_list st) →
  flag_honest (sorted (update st timestamp event_level))
              (events_list (update st timestamp event_level)).
Proof.
  intros Hst. rewrite update_eq_described. unfold update_described.
  case_bool_decide; [done|]. simpl. unfold strictly_below_last.
  intros Hflag.
  destruct (sorted st); [|done]. simpl in Hflag.
  apply Sorted_snoc; [by apply Hst|].
  destruct (last (events_list st)) as [back|] eqn:Hlast.
  - apply last_Some in Hlast as [l' ->]. constructor.
    case_bool_decide; [done|]. done.
  - apply last_None in Hlast as ->. constructor.
Qed.

Lemma reachable_flag_honest st :
  reachable st → flag_honest (sorted st) (events_list st).
Proof.
  induction 1 as [w n|st t lvl _ IH|w n st row _ IH|st _ IH
                  |w st arr st' _ IH Harr Hm].
  - intros _. constructor.
  - by apply update_flag_honest.
  - unfold WindowFunnelAggregateFunction.update.
    by apply update_flag_honest.
  - intros _. apply std_stable_sort_sorted.
  - unfold deserialize_and_merge in Hm. case_bool_decide; [by simplify_eq|].
    destruct (decode arr) as [[[n flag] l]|] eqn:Hdec; [|done].
    simpl in Hm. simplify_eq. intros _. simpl.
    apply merge_runs_sorted; [done|]. by eapply Harr.
Qed.

(** The arrays that the code itself produces are honest. *)
Lemma datum_array_of_honest st :
  well_typed st → flag_honest (sorted st) (events_list st) →
  honest_array (datum_array_of st).
Proof.
  intros Hwt Hst n flag l Hdec.
  rewrite decode_datum_array_of in Hdec by done. by simplify_eq.
Qed.

Lemma convert_row_honest conditions row :
  honest_array (WindowFunnelAggregateFunction.convert_row conditions row).
Proof. intros n flag l Hdec. simpl in Hdec. by simplify_eq. Qed.

(** C8. In every state reached from an empty log by updates and merges of
    honestly flagged arrays, a set flag means that the list is
    non-decreasing in the order on (timestamp, step index). The flag may
    be off although the list is non-decreasing: so it is after the sort of
    [get_event_level], and in the one-row arrays of
    [convert_to_serialize_format]. *)
Theorem sorted_flag_conservative :
  (∀ st, reachable st → sorted st = true → Sorted pair_le (events_list st))
  ∧ (∃ st, reachable st ∧ sorted st = false
           ∧ Sorted pair_le (events_list st))
  ∧ (∀ conditions row,
       ∃ events l,
         decode (WindowFunnelAggregateFunction.convert_row conditions row)
         = Some (events, false, l) ∧ Sorted pair_le l).
Proof.
  split; [apply reachable_flag_honest|]. split.
  - exists (sort (update (update (fresh 0 0) 5 1) 3 1)).
    split; [repeat constructor|].
    split; [done|]. apply std_stable_sort_sorted.
  - intros n row. eexists _, _. split; [done|]. repeat constructor.
Qed.

Lemma sorted_flag_conservative_witness :
  Sorted pair_le
    (events_list (update (update (fresh 3600 3) 3 1) 5 2)).
Proof.
  apply (proj1 sorted_flag_conservative).
  - apply reachable_update, reachable_update, reachable_fresh.
  - reflexivity.
Defined.

(** ** Sorting and filtering *)

Lemma StronglySorted_filter {A} (R : relation A) (P : A → Prop)
    `{∀ x, Decision (P x)} (l : list A) :
  StronglySorted R l → StronglySorted R (filter P l).
Proof.
  induction 1 as [|x l Hl IH Hx]; [constructor|].
  rewrite filter_cons. case_decide; [|done].
  constructor; [done|].
  apply Forall_forall. intros y [_ Hy]%list_elem_of_filter.
  rewrite Forall_forall in Hx. by apply Hx.
Qed.

Lemma Sorted_filter (P : TimestampEvent → Prop) `{∀ x, Decision (P x)} l :
  Sorted pair_le l → Sorted pair_le (filter P l).
Proof.
  intros Hl. apply StronglySorted_Sorted, StronglySorted_filter.
  by apply Sorted_StronglySorted; [apply _|].
Qed.

Lemma std_stable_sort_filter (P : TimestampEvent → Prop)
    `{∀ x, Decision (P x)} l :
  std_stable_sort (filter P l) = filter P (std_stable_sort l).
Proof.
  symmetry. apply std_sort_characterised.
  - apply Sorted_filter, std_stable_sort_sorted.
  - by rewrite std_stable_sort_perm.
Qed.

Lemma scanned_events_sorted st :
  flag_honest (sorted st) (events_list st) → Sorted pair_le (scanned_events st).
Proof.
  unfold scanned_events. intros Hst.
  destruct (sorted st); [by apply Hst|apply std_stable_sort_sorted].
Qed.

Lemma scanned_events_filter (P : TimestampEvent → Prop)
    `{∀ x, Decision (P x)} l window events flag :
  scanned_events (mkState (filter P l) window events flag)
  = filter P (scanned_events (mkState l window events flag)).
Proof.
  unfold scanned_events. simpl. destruct flag; [done|].
  apply std_stable_sort_filter.
Qed.

(** ** Step-1 elements with a negative timestamp *)

Lemma same_entry_lookup ts1 ts2 (i : nat) :
  Forall2 same_entry ts1 ts2 →
  match ts1 !! i, ts2 !! i with
  | Some x, Some y => same_entry x y
  | None, None => True
  | _, _ => False
  end.
Proof.
  intros Hts. revert i.
  induction Hts as [|x y ts1 ts2 Hxy _ IH]; intros [|i]; simpl; try done.
  apply IH.
Qed.

Lemma scan_step_same_entries window events ts1 ts2 e :
  Forall2 same_entry ts1 ts2 →
  same_result (scan_step window events ts1 e) (scan_step window events ts2 e).
Proof.
  intros Hts. unfold scan_step.
  destruct (e.2 =? 0); [done|].
  destruct (e.2 - 1 =? 0).
  - pose proof (same_entry_lookup ts1 ts2 0 Hts) as H0.
    destruct (ts1 !! 0%nat), (ts2 !! 0%nat); try done. simpl.
    apply Forall2_insert; [done|by left].
  - pose proof (same_entry_lookup ts1 ts2 (Z.to_nat (e.2 - 1 - 1)) Hts) as H1.
    pose proof (same_entry_lookup ts1 ts2 (Z.to_nat (e.2 - 1)) Hts) as H2.
    destruct (ts1 !! Z.to_nat (e.2 - 1 - 1)) as [x|],
             (ts2 !! Z.to_nat (e.2 - 1 - 1)) as [y|]; try done.
    destruct H1 as [->|[Hx Hy]].
    + destruct ((0 <=? y) && (e.1 <=? to_time (y + window))); [|done].
      destruct (ts1 !! Z.to_nat (e.2 - 1)), (ts2 !! Z.to_nat (e.2 - 1));
        try done.
      destruct (e.2 - 1 + 1 =? events); [done|]. simpl.
      apply Forall2_insert; [done|by left].
    + rewrite (proj2 (Z.leb_gt 0 x)), (proj2 (Z.leb_gt 0 y)) by done.
      done.
Qed.

Lemma last_reached_same_entries ts1 ts2 :
  Forall2 same_entry ts1 ts2 →
  ∀ event, last_reached ts1 event = last_reached ts2 event.
Proof.
  intros Hts. induction event as [|event IH]; [done|]. simpl.
  pose proof (same_entry_lookup ts1 ts2 event Hts) as He.
  destruct (ts1 !! event) as [x|], (ts2 !! event) as [y|]; try done. simpl.
  destruct He as [->|[Hx Hy]].
  - by rewrite IH.
  - by rewrite (proj2 (Z.leb_gt 0 x)), (proj2 (Z.leb_gt 0 y)), IH.
Qed.

(** Scanning a non-decreasing list with or without its negative step-1
    elements: as long as the entry at index 0 of the second run is set,
    only elements with a non-negative timestamp are left. *)
Lemma scan_without_negative_starts window events l : ∀ ts1 ts2,
  StronglySorted pair_le l →
  Forall2 same_entry ts1 ts2 →
  (0 < length ts2)%nat →
  (∀ y, ts2 !! 0%nat = Some y → 0 ≤ y → Forall (λ e, 0 ≤ e.1) l) →
  same_result (scan window events ts1 l)
              (scan window events ts2 (without_negative_starts l)).
Proof.
  induction l as [|e l IH]; intros ts1 ts2 Hl Hts Hlen Hset; [done|].
  apply StronglySorted_cons in Hl as [Hel Hl].
  unfold without_negative_starts. rewrite filter_cons.
  fold (without_negative_starts l).
  destruct (decide (¬ negative_start e)) as [Hne|Hneg].
  - (* the element is scanned by both runs *)
    simpl. pose proof (scan_step_same_entries window events _ _ e Hts) as Hs.
    destruct (scan_step window events ts1 e) as [ts1'| |] eqn:H1,
             (scan_step window events ts2 e) as [ts2'| |] eqn:H2; try done.
    apply IH; [done|done| |].
    + rewrite (scan_step_length _ _ _ _ _ H2). done.
    + intros y Hy H0.
      destruct (ts2 !! 0%nat) as [y0|] eqn:Hy0;
        [|apply lookup_ge_None in Hy0; lia].
      destruct (decide (0 ≤ y0)) as [Hy0'|Hy0'].
      { specialize (Hset y0 eq_refl Hy0'). by apply Forall_cons in Hset as [_ ?]. }
      (* the entry has just been set: the element is a step-1 element *)
      assert (0 ≤ e.1) as He.
      { unfold scan_step in H2. repeat case_match; simplify_eq; try lia;
          repeat match goal with
                 | H : (_ =? _) = false |- _ => apply Z.eqb_neq in H
                 end.
        - rewrite list_lookup_insert_eq in Hy by done. by simplify_eq.
        - match type of Hy with
          | <[?j := _]> _ !! _ = _ =>
              destruct (decide (j = 0%nat)) as [Hj|Hj]
          end.
          + rewrite Hj, list_lookup_insert_eq in Hy by done.
            match goal with
            | H : ts2 !! Z.to_nat (e.2 - 1 - 1) = _ |- _ =>
                replace (Z.to_nat (e.2 - 1 - 1)) with 0%nat in H by lia
            end.
            assert (y = y0) by congruence. lia.
          + rewrite list_lookup_insert_ne in Hy by done.
            assert (y = y0) by congruence. lia. }
      apply Forall_forall. intros e' He'.
      rewrite Forall_forall in Hel. apply Hel, pair_le_iff in He'. lia.
  - (* a negative step-1 element: scanned by the first run only *)
    apply dec_stable in Hneg. destruct Hneg as [Ht Hs].
    destruct e as [t s]. simpl in Ht, Hs. subst s.
    change (scan window events ts1 ((t, 1) :: l))
      with (match scan_step window events ts1 (t, 1) with
            | Continue ts' => scan window events ts' l
            | r => r
            end).
    unfold scan_step. simpl.
    pose proof (same_entry_lookup ts1 ts2 0 Hts) as H0.
    destruct (ts2 !! 0%nat) as [y|] eqn:Hy;
      [|apply lookup_ge_None in Hy; lia].
    destruct (ts1 !! 0%nat) as [x|] eqn:Hx; [|done].
    assert (y < 0) as Hyneg.
    { destruct (decide (0 ≤ y)) as [Hy'|]; [|lia].
      specialize (Hset y eq_refl Hy'). apply Forall_cons in Hset as [? _].
      simpl in *. lia. }
    apply IH; [done| |done|].
    + destruct ts1 as [|x1 ts1], ts2 as [|y2 ts2]; simplify_eq/=.
      apply Forall2_cons in Hts as [_ Hts].
      constructor; [right; lia|done].
    + intros y' Hy' H0'. rewrite Hy in Hy'. simplify_eq. lia.
Qed.

Lemma last_reached_unset ts :
  Forall (λ x, x < 0) ts →
  ∀ event, (event ≤ length ts)%nat → last_reached ts event = Some 0.
Proof.
  intros Hts. induction event as [|event IH]; intros Hle; [done|]. simpl.
  destruct (lookup_lt_is_Some_2 ts event) as [x Hx]; [lia|]. rewrite Hx.
  simpl. rewrite Forall_lookup in Hts. specialize (Hts _ _ Hx).
  rewrite (proj2 (Z.leb_gt 0 x)) by done. apply IH. lia.
Qed.

(** C9. A step-1 element with a negative timestamp writes its timestamp
    into the entry at index 0 like any other step-1 element, but an entry
    counts as set only when it is at least 0: the level of a log is the
    level of the log without its negative step-1 elements, and the log
    holding (-1, 1) alone has level 0. *)
Theorem negative_start_not_counted window events l flag :
  1 ≤ events →
  flag_honest flag l →
  get_event_level (mkState l window events flag)
  = get_event_level (mkState (without_negative_starts l) window events flag)
  ∧ get_event_level (mkState [(-1, 1)] window events true) = Some 0
  ∧ ∀ x ts timestamp,
      scan_step window events (x :: ts) (timestamp, 1)
      = Continue (timestamp :: ts).
Proof.
  intros Hn Hl. split; [|split; [|done]].
  - unfold get_event_level, without_negative_starts.
    rewrite scanned_events_filter.
    cbn [window_size events_size].
    set (ts := replicate (Z.to_nat events) (-1)).
    assert (Hs : same_result
              (scan window events ts
                 (scanned_events (mkState l window events flag)))
              (scan window events ts
                 (without_negative_starts
                    (scanned_events (mkState l window events flag))))).
    { apply scan_without_negative_starts.
      - apply Sorted_StronglySorted; [apply _|].
        by apply scanned_events_sorted.
      - apply Forall_Forall2_diag, Forall_forall. intros x _. by left.
      - unfold ts. rewrite length_replicate. lia.
      - intros y Hy Hy0. apply lookup_replicate in Hy as [-> _]. lia. }
    unfold without_negative_starts in Hs.
    destruct (scan window events ts (scanned_events _)) as [ts1| |],
             (scan window events ts (filter _ _)) as [ts2| |];
      simpl in Hs; try done; [|by subst].
    rewrite (Forall2_length _ _ _ Hs).
    by apply last_reached_same_entries.
  - unfold get_event_level, scanned_events. cbn [window_size events_size sorted events_list scan].
    unfold scan_step. cbn [fst snd]. simpl (1 =? 0). simpl (1 - 1 =? 0).
    cbv iota.
    destruct (lookup_lt_is_Some_2 (replicate (Z.to_nat events) (-1)) 0)
      as [x ->]; [rewrite length_replicate; lia|].
    apply last_reached_unset; [|done].
    apply Forall_insert; [|lia].
    apply Forall_forall. intros y Hy%elem_of_replicate_inv. lia.
Qed.

Lemma negative_start_not_counted_witness :
  get_event_level
    (mkState [(-5, 1); (-3, 2); (2, 1); (4, 2)] 10 2 true)
  = get_event_level
      (mkState (without_negative_starts [(-5, 1); (-3, 2); (2, 1); (4, 2)])
               10 2 true).
Proof.
  apply (negative_start_not_counted 10 2
           [(-5, 1); (-3, 2); (2, 1); (4, 2)] true).
  - lia.
  - intros _. repeat constructor; unfold pair_le, pair_lt; simpl; lia.
Defined.

(** ** Partial aggregation *)

Lemma scan_matched window events l : ∀ ts,
  scan window events ts l = scan window events ts (matched l).
Proof.
  induction l as [|e l IH]; intros ts; [done|].
  unfold matched. rewrite filter_cons. fold (matched l).
  destruct (decide (e.2 ≠ 0)) as [Hne|Heq]; simpl.
  - destruct (scan_step window events ts e); auto.
  - apply dec_stable in Heq. unfold scan_step. rewrite Heq. simpl. apply IH.
Qed.

Lemma scanned_events_perm st : scanned_events st ≡ₚ events_list st.
Proof.
  unfold scanned_events. destruct (sorted st); [done|].
  apply std_stable_sort_perm.
Qed.

(** The level depends on the window, the number of events and the
    matched elements only, not on their order in the list. *)
Lemma get_event_level_determined st1 st2 :
  window_size st1 = window_size st2 →
  events_size st1 = events_size st2 →
  flag_honest (sorted st1) (events_list st1) →
  flag_honest (sorted st2) (events_list st2) →
  matched (events_list st1) ≡ₚ matched (events_list st2) →
  get_event_level st1 = get_event_level st2.
Proof.
  intros Hw Hn H1 H2 Hp. unfold get_event_level.
  rewrite (scan_matched _ _ (scanned_events st1)).
  rewrite (scan_matched _ _ (scanned_events st2)).
  rewrite Hw, Hn.
  replace (matched (scanned_events st1)) with (matched (scanned_events st2));
    [done|].
  apply sorted_permutation_unique.
  - by apply Sorted_filter, scanned_events_sorted.
  - by apply Sorted_filter, scanned_events_sorted.
  - unfold matched in *. by rewrite !scanned_events_perm.
Qed.

Lemma update_matched st timestamp event_level :
  matched (events_list (update st timestamp event_level))
  = matched (events_list st) ++ matched [(timestamp, event_level)].
Proof.
  rewrite update_eq_described. unfold update_described, matched.
  case_bool_decide as Hc; simpl.
  - destruct Hc as [_ ->]. rewrite filter_cons_False by (simpl; lia).
    by rewrite filter_nil, app_nil_r.
  - by rewrite filter_app.
Qed.

Lemma update_not_empty st timestamp event_level :
  events_list (update st timestamp event_level) ≠ [].
Proof.
  rewrite update_eq_described. unfold update_described.
  case_bool_decide as Hc; simpl; [by destruct Hc|].
  by destruct (events_list st).
Qed.

Lemma update_well_typed_events st timestamp event_level :
  Forall well_typed_event (events_list st) →
  well_typed_event (timestamp, event_level) →
  Forall well_typed_event (events_list (update st timestamp event_level)).
Proof.
  intros Hst He. rewrite update_eq_described. unfold update_described.
  case_bool_decide; simpl; [done|].
  apply Forall_app. split; [done|]. by constructor.
Qed.

Lemma update_fields st timestamp event_level :
  window_size (update st timestamp event_level) = window_size st
  ∧ events_size (update st timestamp event_level) = events_size st.
Proof.
  rewrite update_eq_described. unfold update_described.
  by case_bool_decide.
Qed.

(** What the state of a worker looks like after its rows. *)
Lemma update_rows_snoc window conditions st rows row :
  update_rows window conditions st (rows ++ [row])
  = WindowFunnelAggregateFunction.update window conditions
      (update_rows window conditions st rows) row.
Proof. apply foldl_snoc. Qed.

Lemma update_rows_reachable window conditions st rows :
  reachable st → reachable (update_rows window conditions st rows).
Proof.
  intros Hst. induction rows as [|row rows IH] using rev_ind; [done|].
  rewrite update_rows_snoc. by apply reachable_row.
Qed.

Lemma update_rows_matched window conditions st rows :
  matched (events_list (update_rows window conditions st rows))
  = matched (events_list st) ++ matched rows.
Proof.
  induction rows as [|row rows IH] using rev_ind.
  - unfold matched. simpl. by rewrite app_nil_r.
  - rewrite update_rows_snoc. unfold WindowFunnelAggregateFunction.update.
    rewrite update_matched. simpl. rewrite IH. destruct row as [t lvl].
    unfold matched. by rewrite (filter_app _ rows), (assoc_L (++)).
Qed.

Lemma update_rows_well_typed window conditions st rows :
  Forall well_typed_event (events_list st) →
  Forall well_typed_event rows →
  Forall well_typed_event
    (events_list (update_rows window conditions st rows)).
Proof.
  intros Hst. induction rows as [|row rows IH] using rev_ind; [done|].
  intros [Hrows Hrow]%Forall_app. apply Forall_cons in Hrow as [Hrow _].
  rewrite update_rows_snoc. unfold WindowFunnelAggregateFunction.update.
  apply update_well_typed_events; simpl; [by apply IH|by destruct row].
Qed.

Lemma update_rows_fields window conditions st rows :
  rows ≠ [] →
  events_list (update_rows window conditions st rows) ≠ []
  ∧ window_size (update_rows window conditions st rows) = window
  ∧ events_size (update_rows window conditions st rows) = to_uint8 conditions.
Proof.
  destruct rows as [|row rows _] using rev_ind; [done|]. intros _.
  rewrite update_rows_snoc. unfold WindowFunnelAggregateFunction.update.
  split; [apply update_not_empty|]. apply update_fields.
Qed.

Lemma serialize_states_from to sts :
  foldl (λ to st, WindowFunnelAggregateFunction.serialize_to_column st to)
        to sts
  = to ++ (datum_array_of <$> filter holds_events sts).
Proof.
  revert to. induction sts as [|st sts IH]; intros to; simpl.
  - by rewrite app_nil_r.
  - rewrite IH. unfold WindowFunnelAggregateFunction.serialize_to_column,
      serialize_to_array_column.
    rewrite filter_cons. unfold holds_events at 2.
    case_bool_decide as Hst.
    + rewrite decide_False by (intros Hne; by apply Hne). done.
    + rewrite decide_True by done. by rewrite fmap_cons, <-(assoc_L (++)).
Qed.

Lemma serialize_states_holding sts :
  serialize_states sts = datum_array_of <$> filter holds_events sts.
Proof. apply serialize_states_from. Qed.

Lemma merge_rows_states window conditions sts : ∀ target,
  flag_honest (sorted target) (events_list target) →
  Forall (handed_over conditions) sts →
  ∃ merged,
    merge_rows window target (datum_array_of <$> sts) = Some merged
    ∧ flag_honest (sorted merged) (events_list merged)
    ∧ events_list merged
      ≡ₚ events_list target ++ mjoin (events_list <$> sts)
    ∧ (sts = [] → merged = target)
    ∧ (sts ≠ [] →
       window_size merged = window
       ∧ events_size merged = to_uint8 conditions).
Proof.
  induction sts as [|st sts IH]; intros target Htarget Hsts.
  - exists target. simpl. rewrite app_nil_r. done.
  - apply Forall_cons in Hsts as [(Hwt & Hst & Hn) Hsts].
    rewrite fmap_cons. cbn [merge_rows].
    unfold WindowFunnelAggregateFunction.merge.
    rewrite (deserialize_and_merge_decoded _ _ _ _ _ _
               (decode_datum_array_of st Hwt)). cbn [mbind option_bind].
    set (target' := mkState _ _ _ _).
    destruct (IH target') as (merged & Hm & Hflag & Hperm & Hnil & Hcons).
    { intros _. by apply merge_runs_sorted. }
    { done. }
    exists merged. split; [done|]. split; [done|].
    split; [|split; [done|]].
    + rewrite Hperm. simpl. rewrite merge_runs_perm.
      by rewrite (assoc_L (++)).
    + intros _. destruct sts as [|st' sts].
      * by rewrite (Hnil eq_refl).
      * by apply Hcons.
Qed.

Lemma mjoin_cons {A} (l : list A) (ls : list (list A)) :
  mjoin (l :: ls) = l ++ mjoin ls.
Proof. done. Qed.

Global Instance matched_Permutation : Proper ((≡ₚ) ==> (≡ₚ)) matched.
Proof. intros l1 l2 Hl. unfold matched. by rewrite Hl. Qed.

Lemma matched_app l1 l2 : matched (l1 ++ l2) = matched l1 ++ matched l2.
Proof. apply filter_app. Qed.

Section partition.
Context (window conditions window0 events0 : Z).

Lemma partial_log_matched rows :
  matched (events_list (partial_log window conditions window0 events0 rows))
  = matched rows.
Proof. unfold partial_log. by rewrite update_rows_matched. Qed.

Lemma partial_log_flag_honest rows :
  flag_honest
    (sorted (partial_log window conditions window0 events0 rows))
    (events_list (partial_log window conditions window0 events0 rows)).
Proof.
  apply reachable_flag_honest, update_rows_reachable, reachable_fresh.
Qed.

Lemma partial_log_holds_events rows :
  holds_events (partial_log window conditions window0 events0 rows)
  ↔ rows ≠ [].
Proof.
  split.
  - intros Hst ->. by apply Hst.
  - intros Hrows. by apply update_rows_fields.
Qed.

Lemma partial_log_handed_over rows :
  Forall well_typed_event rows → rows ≠ [] →
  handed_over conditions (partial_log window conditions window0 events0 rows).
Proof.
  intros Hwt Hrows.
  destruct (update_rows_fields window conditions (fresh window0 events0)
              rows Hrows) as (_ & _ & Hn).
  split; [split|split].
  - unfold partial_log. rewrite Hn. unfold to_uint8, is_uint8.
    apply Z.mod_pos_bound. lia.
  - apply update_rows_well_typed; [constructor|done].
  - apply partial_log_flag_honest.
  - done.
Qed.

Lemma matched_partial_logs (parts : list (list TimestampEvent)) :
  matched
    (mjoin (events_list
              <$> filter holds_events
                    (partial_log window conditions window0 events0 <$> parts)))
  = matched (mjoin parts).
Proof.
  induction parts as [|p parts IH]; [done|].
  rewrite fmap_cons, filter_cons, (mjoin_cons p).
  destruct (decide (holds_events
                      (partial_log window conditions window0 events0 p)))
    as [Hp|Hp].
  - rewrite fmap_cons, mjoin_cons, !matched_app, IH.
    f_equal. apply partial_log_matched.
  - rewrite IH.
    assert (p = []) as ->; [|done].
    destruct p; [done|]. exfalso. by apply Hp, partial_log_holds_events.
Qed.
End partition.

(** C1. Fix the number of events and the window. Split the rows in any
    way into parts and let one worker per part update its own fresh state
    with the rows of the part. Take the state of any one worker as the
    receiving state (a worker without rows gives the fresh receiving
    state), serialize the states of the other workers and merge the arrays
    into it, in any order of the workers: the level of the merged state is
    the level of the single state updated with all the rows. *)
Theorem partition_merge_equals_direct_update
    window conditions window0 events0
    (all : list TimestampEvent) (parts : list (list TimestampEvent))
    (receiver : list TimestampEvent) (order : list (list TimestampEvent)) :
  Forall well_typed_event all →
  mjoin parts ≡ₚ all →
  receiver :: order ≡ₚ parts →
  ∃ merged,
    merge_rows window
      (partial_log window conditions window0 events0 receiver)
      (serialize_states
         (partial_log window conditions window0 events0 <$> order))
    = Some merged
    ∧ get_event_level merged
      = get_event_level
          (update_rows window conditions (fresh window0 events0) all).
Proof.
  intros Hwt Hparts Horder.
  assert (Hall : receiver ++ mjoin order ≡ₚ all).
  { by rewrite <-mjoin_cons, Horder. }
  set (partial := partial_log window conditions window0 events0).
  set (holding := filter holds_events (partial <$> order)).
  assert (Hholding : Forall (handed_over conditions) holding).
  { apply Forall_forall. intros st [Hst Hin]%list_elem_of_filter.
    apply list_elem_of_fmap in Hin as (p & -> & Hp).
    apply partial_log_handed_over.
    - apply Forall_forall. intros e He.
      rewrite Forall_forall in Hwt. apply Hwt. rewrite <-Hall.
      apply elem_of_app. right. apply list_elem_of_join. eauto.
    - by apply partial_log_holds_events in Hst. }
  rewrite serialize_states_holding. fold holding.
  destruct (merge_rows_states window conditions holding (partial receiver))
    as (merged & Hm & Hflag & Hperm & Hnil & Hcons);
    [apply partial_log_flag_honest|done|].
  exists merged. split; [done|].
  (* when no other worker holds an element, all rows are the receiver's *)
  assert (Hrest : holding = [] → mjoin order = []).
  { intros Hh. apply join_nil_2, Forall_forall. intros p Hp.
    destruct p as [|e p]; [done|]. exfalso.
    assert (partial (e :: p) ∈ holding) as Hin.
    { apply list_elem_of_filter. split.
      - by apply partial_log_holds_events.
      - apply list_elem_of_fmap. eauto. }
    rewrite Hh in Hin. by apply not_elem_of_nil in Hin. }
  destruct (decide (all = [])) as [->|Hne].
  - (* no row at all: nothing is serialized *)
    apply Permutation_nil_r, app_eq_nil in Hall as [-> Horder'].
    assert (holding = []) as Hempty.
    { destruct holding as [|st rest] eqn:Hh; [done|]. exfalso.
      assert (st ∈ holding) as Hin by (rewrite Hh; left).
      apply list_elem_of_filter in Hin as [Hst Hin].
      apply list_elem_of_fmap in Hin as (p & -> & Hp).
      apply join_nil_1 in Horder'. rewrite Forall_forall in Horder'.
      apply partial_log_holds_events in Hst. by apply Hst, Horder'. }
    by rewrite (Hnil Hempty).
  - assert (window_size merged = window
            ∧ events_size merged = to_uint8 conditions) as [Hw Hn].
    { destruct (decide (holding = [])) as [Hempty|Hsome]; [|by apply Hcons].
      rewrite (Hnil Hempty). unfold partial, partial_log.
      apply update_rows_fields. intros ->.
      rewrite (Hrest Hempty) in Hall. by apply Permutation_nil_l in Hall. }
    destruct (update_rows_fields window conditions (fresh window0 events0)
                all Hne) as (_ & Hw' & Hn').
    apply get_event_level_determined.
    + by rewrite Hw, Hw'.
    + by rewrite Hn, Hn'.
    + done.
    + apply reachable_flag_honest, update_rows_reachable, reachable_fresh.
    + rewrite Hperm, matched_app. unfold holding, partial.
      rewrite matched_partial_logs, partial_log_matched, update_rows_matched.
      simpl. by rewrite <-matched_app, Hall.
Qed.

Lemma partition_merge_equals_direct_update_witness :
  ∃ merged,
    merge_rows 3600 (partial_log 3600 3 0 0 [(30, 2)])
      (serialize_states
         (partial_log 3600 3 0 0 <$> [[(5, 0); (20, 3)]; [(10, 2); (0, 1)]]))
    = Some merged
    ∧ get_event_level merged
      = get_event_level
          (update_rows 3600 3 (fresh 0 0)
             [(10, 2); (0, 1); (30, 2); (5, 0); (20, 3)]).
Proof.
  apply (partition_merge_equals_direct_update 3600 3 0 0
           [(10, 2); (0, 1); (30, 2); (5, 0); (20, 3)]
           [[(10, 2); (0, 1)]; [(30, 2)]; [(5, 0); (20, 3)]]
           [(30, 2)]
           [[(5, 0); (20, 3)]; [(10, 2); (0, 1)]]).
  - repeat constructor; simpl; lia.
  - reflexivity.
  - etrans; [apply perm_skip, perm_swap|apply perm_swap].
Defined.

(** * Further properties *)

(** ** Rows that match no condition *)

Lemma scanned_events_matched st :
  matched (scanned_events st)
  = scanned_events
      (mkState (matched (events_list st)) (window_size st) (events_size st)
               (sorted st)).
Proof.
  destruct st as [l w n flag]. unfold matched. simpl.
  symmetry. apply scanned_events_filter.
Qed.

Lemma get_event_level_unmatched st :
  matched (events_list st) = [] → get_event_level st = Some 0.
Proof.
  intros Hnone. unfold get_event_level.
  rewrite scan_matched, scanned_events_matched, Hnone.
  unfold scanned_events. simpl. destruct (sorted st); simpl.
  all: apply last_reached_unset; [|done].
  all: apply Forall_forall; intros y Hy%elem_of_replicate_inv; lia.
Qed.

(** X1. The elements with event position 0 never change the level: a log
    and the log without them evaluate alike, whatever the flag and the
    other fields are. A log that holds such elements only, or nothing,
    has level 0. *)
Theorem unmatched_rows_do_not_count l window events flag :
  get_event_level (mkState l window events flag)
  = get_event_level (mkState (matched l) window events flag)
  ∧ (matched l = [] →
     get_event_level (mkState l window events flag) = Some 0).
Proof.
  split.
  - unfold get_event_level. cbn [window_size events_size].
    rewrite (scan_matched _ _ (scanned_events (mkState l _ _ _))).
    by rewrite scanned_events_matched.
  - intros Hnone. by apply get_event_level_unmatched.
Qed.

Lemma unmatched_rows_do_not_count_witness :
  get_event_level (mkState [(7, 0); (3, 0)] 3600 3 false) = Some 0.
Proof.
  apply (unmatched_rows_do_not_count [(7, 0); (3, 0)] 3600 3 false).
  reflexivity.
Defined.

(** X2. The level depends on the window, the number of events and the
    elements with a non-zero event position only: two logs with honest
    flags that agree on these, in whatever order the elements are held,
    have the same level. *)
Theorem level_of_rearranged_log st1 st2 :
  window_size st1 = window_size st2 →
  events_size st1 = events_size st2 →
  flag_honest (sorted st1) (events_list st1) →
  flag_honest (sorted st2) (events_list st2) →
  matched (events_list st1) ≡ₚ matched (events_list st2) →
  get_event_level st1 = get_event_level st2.
Proof. apply get_event_level_determined. Qed.

Lemma level_of_rearranged_log_witness :
  get_event_level (mkState [(9, 2); (0, 0); (1, 1)] 10 2 false)
  = get_event_level (mkState [(1, 1); (9, 2)] 10 2 true).
Proof.
  apply (level_of_rearranged_log
           (mkState [(9, 2); (0, 0); (1, 1)] 10 2 false)
           (mkState [(1, 1); (9, 2)] 10 2 true)).
  - reflexivity.
  - reflexivity.
  - intros Hf. discriminate Hf.
  - intros _. repeat constructor; unfold pair_le, pair_lt; simpl; lia.
  - apply perm_swap.
Defined.

(** ** The sort inside get_event_level *)

Lemma std_stable_sort_idemp l :
  std_stable_sort (std_stable_sort l) = std_stable_sort l.
Proof. apply std_stable_sort_id, std_stable_sort_sorted. Qed.

(** X3. [get_event_level] sorts the mutable list when the flag is off.
    That does not show: asked again, the state gives the same level, and
    a state updated after the question gives the level it would have given
    had the question not been asked. *)
Theorem get_event_level_repeatable st :
  get_event_level (after_get_event_level st) = get_event_level st
  ∧ after_get_event_level (after_get_event_level st)
    = after_get_event_level st
  ∧ ∀ timestamp event_level,
      get_event_level (update (after_get_event_level st) timestamp event_level)
      = get_event_level (update st timestamp event_level).
Proof.
  unfold after_get_event_level.
  destruct st as [l w n flag]. simpl. destruct flag; [done|].
  unfold sort. simpl. split; [|split].
  - unfold get_event_level, scanned_events. simpl.
    by rewrite std_stable_sort_idemp.
  - by rewrite std_stable_sort_idemp.
  - intros t lvl. rewrite !update_eq_described. unfold update_described.
    simpl.
    assert (Hnil : std_stable_sort l ≠ [] ∧ lvl = 0 ↔ l ≠ [] ∧ lvl = 0).
    { assert (std_stable_sort l = [] ↔ l = []).
      { split; intros Hl.
        - apply Permutation_nil_r. by rewrite <-Hl, std_stable_sort_perm.
        - by rewrite Hl. }
      tauto. }
    rewrite (bool_decide_ext _ _ Hnil).
    case_bool_decide.
    + unfold get_event_level, scanned_events. simpl.
      by rewrite std_stable_sort_idemp.
    + unfold get_event_level, scanned_events. simpl.
      replace (std_stable_sort (std_stable_sort l ++ [(t, lvl)]))
        with (std_stable_sort (l ++ [(t, lvl)])); [done|].
      apply sorted_permutation_unique; try apply std_stable_sort_sorted.
      by rewrite !std_stable_sort_perm.
Qed.

(** ** Merging: what every merge does *)

Lemma read_pairs_length_lt n : ∀ tail,
  (length tail < n)%nat →
  length (read_pairs tail) = (length tail / 2)%nat.
Proof.
  induction n as [|n IH]; intros tail Hlen; [lia|].
  destruct tail as [|a [|b tail]]; [done|done|].
  cbn [read_pairs length] in *. rewrite IH by lia.
  replace (S (S (length tail))) with (length tail + 1 * 2)%nat by lia.
  rewrite Nat.div_add by done. lia.
Qed.

Lemma read_pairs_length tail :
  length (read_pairs tail) = (length tail / 2)%nat.
Proof. apply (read_pairs_length_lt (S (length tail))). lia. Qed.

(** X4. Whatever the flags say, a merge of an array of two or more
    elements neither loses nor invents a pair: the list of the merged
    state is a rearrangement of the local list followed by the pairs read
    from the array, half the length of the tail in number. The flag is
    set, the window is the constant of the context and the number of
    events is the first header scalar reduced to a [uint8_t]. *)
Theorem merge_keeps_every_pair window st d0 d1 tail :
  ∃ st',
    deserialize_and_merge window st (d0 :: d1 :: tail) = Some st'
    ∧ events_list st' ≡ₚ events_list st ++ read_pairs tail
    ∧ length (events_list st')
      = (length (events_list st) + length tail / 2)%nat
    ∧ sorted st' = true
    ∧ window_size st' = window
    ∧ events_size st' = to_uint8 d0.
Proof.
  eexists. split; [by apply deserialize_and_merge_decoded|]. simpl.
  split; [apply merge_runs_perm|]. split; [|done].
  by rewrite merge_runs_perm, length_app, read_pairs_length.
Qed.

Lemma merge_rows_app window rows1 : ∀ st rows2,
  merge_rows window st (rows1 ++ rows2)
  = st' ← merge_rows window st rows1; merge_rows window st' rows2.
Proof.
  induction rows1 as [|row rows1 IH]; intros st rows2; simpl; [done|].
  destruct (WindowFunnelAggregateFunction.merge window st row); simpl; auto.
Qed.

Lemma deserialize_and_merge_is_Some window st datum_array :
  is_Some (deserialize_and_merge window st datum_array)
  ↔ length datum_array ≠ 1%nat.
Proof.
  destruct datum_array as [|d0 [|d1 tail]]; simpl.
  - split; [done|]. intros _. by eexists.
  - split; [|done]. intros [st' Hst']. by vm_compute in Hst'.
  - split; [done|]. intros _.
    rewrite (deserialize_and_merge_decoded window st (d0 :: d1 :: tail)
               (to_uint8 d0) (uint8_to_bool d1) (read_pairs tail) eq_refl).
    by eexists.
Qed.

Lemma merge_rows_is_Some window rows : ∀ st,
  Forall (λ row : DatumArray, length row ≠ 1%nat) rows →
  is_Some (merge_rows window st rows).
Proof.
  induction rows as [|row rows IH]; intros st Hrows; simpl; [by eexists|].
  apply Forall_cons in Hrows as [Hrow Hrows].
  unfold WindowFunnelAggregateFunction.merge.
  destruct (proj2 (deserialize_and_merge_is_Some window st row) Hrow)
    as [st' ->]. simpl. by apply IH.
Qed.

(** X5. A merge fails, by reading [datum_array[1]] out of range, for
    arrays of exactly one element and for no other array. The arrays that
    [serialize_to_array_column] appends have two elements or more, so
    merging a column filled by it never fails, whatever the states were. *)
Theorem merge_of_serialized_states_succeeds window target sts :
  (∀ st datum_array,
     is_Some (deserialize_and_merge window st datum_array)
     ↔ length datum_array ≠ 1%nat)
  ∧ is_Some (merge_rows window target (serialize_states sts)).
Proof.
  split; [intros; apply deserialize_and_merge_is_Some|].
  apply merge_rows_is_Some. rewrite serialize_states_holding.
  apply Forall_fmap, Forall_forall. intros st _. simpl. lia.
Qed.

(** ** Merging: the short cut and the full sort *)

Lemma merge_runs_full_sort flag other_flag l1 l2 :
  flag_honest flag l1 → flag_honest other_flag l2 →
  merge_runs flag other_flag (length l1) (l1 ++ l2) = std_sort (l1 ++ l2).
Proof.
  intros H1 H2. apply std_sort_characterised.
  - by apply merge_runs_sorted.
  - apply merge_runs_perm.
Qed.

Lemma deserialize_and_merge_sorts window st datum_array events flag l :
  decode datum_array = Some (events, flag, l) →
  flag_honest (sorted st) (events_list st) →
  flag_honest flag l →
  deserialize_and_merge window st datum_array
  = Some (mkState (std_sort (events_list st ++ l)) window events true).
Proof.
  intros Hdec Hst Hl.
  rewrite (deserialize_and_merge_decoded _ _ _ _ _ _ Hdec).
  by rewrite merge_runs_full_sort.
Qed.

(** X6. Sorting only the runs whose flag is off and merging them is a
    short cut, not another result: for honest flags the merged list is
    the list that a full sort of the local elements followed by the remote
    ones gives, in each of the four combinations of the flags. *)
Theorem merge_is_full_sort window st datum_array events flag l :
  decode datum_array = Some (events, flag, l) →
  flag_honest (sorted st) (events_list st) →
  flag_honest flag l →
  deserialize_and_merge window st datum_array
  = Some (mkState (std_sort (events_list st ++ l)) window events true).
Proof. apply deserialize_and_merge_sorts. Qed.

Lemma merge_is_full_sort_witness :
  deserialize_and_merge 3600 (mkState [(3, 1); (5, 2)] 3600 3 true)
                        [3; 0; 9; 1; 4; 2]
  = Some (mkState (std_sort ([(3, 1); (5, 2)] ++ [(9, 1); (4, 2)]))
                  3600 3 true).
Proof.
  apply (merge_is_full_sort 3600 (mkState [(3, 1); (5, 2)] 3600 3 true)
           [3; 0; 9; 1; 4; 2] 3 false [(9, 1); (4, 2)]).
  - reflexivity.
  - intros _. repeat constructor; unfold pair_le, pair_lt; simpl; lia.
  - intros Hf. discriminate Hf.
Defined.

(** X7. Two honest arrays can be merged in either order: both orders
    succeed and leave the same list, with the flag set and the window of
    the context; only the number of events is that of the array merged
    last. *)
Theorem merge_order_irrelevant window st array1 array2
    events1 flag1 l1 events2 flag2 l2 :
  decode array1 = Some (events1, flag1, l1) →
  decode array2 = Some (events2, flag2, l2) →
  flag_honest (sorted st) (events_list st) →
  flag_honest flag1 l1 → flag_honest flag2 l2 →
  ∃ l,
    merge_rows window st [array1; array2]
    = Some (mkState l window events2 true)
    ∧ merge_rows window st [array2; array1]
      = Some (mkState l window events1 true)
    ∧ Sorted pair_le l
    ∧ l ≡ₚ events_list st ++ l1 ++ l2.
Proof.
  intros Hdec1 Hdec2 Hst H1 H2.
  exists (std_sort (events_list st ++ l1 ++ l2)).
  assert (Hsorted : ∀ l', flag_honest true (std_sort l')).
  { intros l' _. apply std_sort_sorted. }
  unfold merge_rows, WindowFunnelAggregateFunction.merge.
  rewrite (deserialize_and_merge_sorts window st array1 events1 flag1 l1)
    by done.
  rewrite (deserialize_and_merge_sorts window st array2 events2 flag2 l2)
    by done.
  simpl.
  rewrite (deserialize_and_merge_sorts window _ array2 events2 flag2 l2)
    by (simpl; auto).
  rewrite (deserialize_and_merge_sorts window _ array1 events1 flag1 l1)
    by (simpl; auto).
  simpl. split; [|split; [|split]].
  - do 2 f_equal. apply sorted_permutation_unique;
      try apply std_sort_sorted.
    by rewrite !std_sort_perm, (assoc_L (++)).
  - do 2 f_equal. apply sorted_permutation_unique;
      try apply std_sort_sorted.
    rewrite !std_sort_perm, <-!(assoc_L (++)).
    by rewrite (comm (++) l2 l1).
  - apply std_sort_sorted.
  - apply std_sort_perm.
Qed.

Lemma merge_order_irrelevant_witness :
  ∃ l,
    merge_rows 3600 (fresh 0 0) [[3; 0; 9; 1; 4; 2]; [3; 1; 1; 1]]
    = Some (mkState l 3600 3 true)
    ∧ merge_rows 3600 (fresh 0 0) [[3; 1; 1; 1]; [3; 0; 9; 1; 4; 2]]
      = Some (mkState l 3600 3 true).
Proof.
  destruct (merge_order_irrelevant 3600 (fresh 0 0)
              [3; 0; 9; 1; 4; 2] [3; 1; 1; 1]
              3 false [(9, 1); (4, 2)] 3 true [(1, 1)])
    as (l & H12 & H21 & _).
  - reflexivity.
  - reflexivity.
  - intros _. constructor.
  - intros Hf. discriminate Hf.
  - intros _. repeat constructor.
  - exists l. split; [exact H12|exact H21].
Defined.

(** ** Logs filled by update alone *)

Lemma update_events_from st timestamp event_level :
  events_list st ≠ [] →
  events_list (update st timestamp event_level)
  = events_list st ++ matched [(timestamp, event_level)].
Proof.
  intros Hst. rewrite update_eq_described. unfold update_described, matched.
  case_bool_decide as Hc; cbn [events_list].
  - destruct Hc as [_ ->]. rewrite filter_cons_False by (simpl; lia).
    by rewrite filter_nil, app_nil_r.
  - rewrite filter_cons_True; [done|]. simpl. intros ->. by apply Hc.
Qed.

Lemma update_rows_events_from window conditions st rows :
  events_list st ≠ [] →
  events_list (update_rows window conditions st rows)
  = events_list st ++ matched rows.
Proof.
  intros Hst. induction rows as [|row rows IH] using rev_ind.
  - by rewrite app_nil_r.
  - rewrite update_rows_snoc. unfold WindowFunnelAggregateFunction.update.
    rewrite update_events_from; cbn [events_list].
    + rewrite IH, matched_app. destruct row. by rewrite (assoc_L (++)).
    + rewrite IH. by destruct (events_list st).
Qed.

(** X8. A log filled by [update] alone keeps its first row, with or
    without a condition that holds, and of the later rows those with a
    non-zero event position, in the order of arrival: a row that matches
    nothing is held at the head of the list only, as the mark of a group. *)
Theorem update_keeps_first_and_matched window conditions window0 events0
    rows :
  events_list (update_rows window conditions (fresh window0 events0) rows)
  = match rows with
    | [] => []
    | row :: rest => row :: matched rest
    end.
Proof.
  destruct rows as [|row rest]; [done|].
  change (update_rows window conditions (fresh window0 events0) (row :: rest))
    with (update_rows window conditions
            (WindowFunnelAggregateFunction.update window conditions
               (fresh window0 events0) row) rest).
  set (st := WindowFunnelAggregateFunction.update _ _ _ _).
  assert (events_list st = [row]) as Hst by (by destruct row).
  rewrite update_rows_events_from; rewrite Hst; done.
Qed.

Lemma Sorted_snoc_inv (l : list TimestampEvent) x :
  Sorted pair_le (l ++ [x]) →
  Sorted pair_le l ∧ ∀ back, last l = Some back → pair_le back x.
Proof.
  intros Hs. apply Sorted_StronglySorted in Hs; [|apply _].
  apply StronglySorted_app in Hs as (Hle & Hl & _). split.
  - by apply StronglySorted_Sorted.
  - intros back [l' ->]%last_Some. apply Hle.
    + apply elem_of_app. right. by left.
    + by left.
Qed.

Lemma update_flag_exact st timestamp event_level :
  (sorted st = true ↔ Sorted pair_le (events_list st)) →
  sorted (update st timestamp event_level) = true
  ↔ Sorted pair_le (events_list (update st timestamp event_level)).
Proof.
  intros Hst. split.
  - apply update_flag_honest. intros Hf. by apply Hst.
  - rewrite update_eq_described. unfold update_described.
    case_bool_decide; [apply Hst|]. cbn [events_list sorted].
    intros [Hl Hlast]%Sorted_snoc_inv.
    apply Hst in Hl. rewrite Hl. unfold strictly_below_last.
    destruct (last (events_list st)) as [back|]; [|done].
    rewrite bool_decide_eq_false_2; [done|]. by apply Hlast.
Qed.

(** X9. As long as a log is filled by [update] alone, its flag is exact:
    it is set if and only if the list is non-decreasing in the order on
    (timestamp, event position). *)
Theorem update_flag_is_exact window conditions window0 events0 rows :
  sorted (update_rows window conditions (fresh window0 events0) rows) = true
  ↔ Sorted pair_le
      (events_list
         (update_rows window conditions (fresh window0 events0) rows)).
Proof.
  induction rows as [|row rows IH] using rev_ind.
  - split; [constructor|done].
  - rewrite update_rows_snoc. unfold WindowFunnelAggregateFunction.update.
    by apply update_flag_exact.
Qed.

Lemma update_flag_is_exact_witness :
  sorted (update_rows 3600 3 (fresh 0 0) [(3, 1); (3, 2); (7, 0); (9, 1)])
  = true.
Proof.
  apply (update_flag_is_exact 3600 3 0 0 [(3, 1); (3, 2); (7, 0); (9, 1)]).
  repeat constructor; unfold pair_le, pair_lt; simpl; lia.
Defined.

(** ** The event position of a row *)

Section event_level.
Import Rows.

(** What [first_match] computes. *)
Lemma first_match_cases ele_vector : ∀ pos,
  1 ≤ pos →
  (first_match pos ele_vector = 0
   ∧ ∀ j, condition_holds (ele_vector !! j) = false)
  ∨ ∃ k : nat,
      first_match pos ele_vector = pos + Z.of_nat k
      ∧ (k < length ele_vector)%nat
      ∧ condition_holds (ele_vector !! k) = true
      ∧ ∀ j : nat, (j < k)%nat → condition_holds (ele_vector !! j) = false.
Proof.
  induction ele_vector as [|datum rest IH]; intros pos Hpos.
  - left. split; [done|]. by intros [|j].
  - cbn [first_match].
    destruct (condition_holds (Some datum)) eqn:Hd.
    + right. exists 0%nat. split; [lia|]. split; [simpl; lia|].
      split; [done|]. intros j Hj. lia.
    + destruct (IH (pos + 1)) as [[H0 Hnone]|(k & Hk & Hlen & Hat & Hbefore)];
        [lia| |].
      * left. split; [done|]. intros [|j]; [done|]. apply Hnone.
      * right. exists (S k). split; [lia|]. split; [simpl; lia|].
        split; [done|]. intros [|j] Hj; [done|]. apply Hbefore. lia.
Qed.

(** The loop reaches the first entry that holds, when its index fits the
    counter. *)
Lemma event_level_loop_found ele_vector (k : nat) :
  (k < length ele_vector)%nat → (k ≤ 255)%nat →
  condition_holds (ele_vector !! k) = true →
  (∀ j : nat, (j < k)%nat → condition_holds (ele_vector !! j) = false) →
  ∀ fuel (i : nat),
    (i ≤ k)%nat → (k - i < fuel)%nat →
    event_level_loop fuel ele_vector (Z.of_nat i)
    = Some (to_uint8 (Z.of_nat k + 1)).
Proof.
  intros Hlen Hk Hat Hbefore.
  induction fuel as [|fuel IH]; intros i Hi Hfuel; [lia|].
  cbn [event_level_loop].
  rewrite bool_decide_eq_true_2 by lia. rewrite Nat2Z.id.
  destruct (decide (i = k)) as [->|Hne].
  - by rewrite Hat.
  - rewrite Hbefore by lia.
    replace (to_uint8 (Z.of_nat i + 1)) with (Z.of_nat (S i)).
    + apply IH; lia.
    + unfold to_uint8. rewrite Z.mod_small; lia.
Qed.

(** The loop runs off the end of an array of at most 255 entries none of
    which holds. *)
Lemma event_level_loop_none ele_vector :
  (length ele_vector ≤ 255)%nat →
  (∀ j, condition_holds (ele_vector !! j) = false) →
  ∀ fuel (i : nat),
    (i ≤ length ele_vector)%nat → (length ele_vector - i < fuel)%nat →
    event_level_loop fuel ele_vector (Z.of_nat i) = Some 0.
Proof.
  intros Hlen Hnone.
  induction fuel as [|fuel IH]; intros i Hi Hfuel; [lia|].
  cbn [event_level_loop]. case_bool_decide as Hlt; [|done].
  rewrite Hnone.
  replace (to_uint8 (Z.of_nat i + 1)) with (Z.of_nat (S i)).
  - apply IH; lia.
  - unfold to_uint8. rewrite Z.mod_small; lia.
Qed.

Lemma first_match_range ele_vector :
  0 ≤ first_match 1 ele_vector ≤ Z.of_nat (length ele_vector).
Proof.
  destruct (first_match_cases ele_vector 1) as [[-> _]|(k & -> & Hk & _)];
    lia.
Qed.

Lemma event_level_loop_short fuel ele_vector :
  (length ele_vector ≤ 255)%nat → (length ele_vector < fuel)%nat →
  event_level_loop fuel ele_vector 0 = Some (first_match 1 ele_vector).
Proof.
  intros Hlen Hfuel.
  destruct (first_match_cases ele_vector 1)
    as [[-> Hnone]|(k & -> & Hk & Hat & Hbefore)]; [lia| |].
  - apply (event_level_loop_none ele_vector Hlen Hnone fuel 0); lia.
  - change 0 with (Z.of_nat 0) at 1.
    rewrite (event_level_loop_found ele_vector k Hk ltac:(lia) Hat Hbefore
               fuel 0) by lia.
    unfold to_uint8. rewrite Z.mod_small by lia. f_equal. lia.
Qed.

(** X10. On a condition array of at most 255 entries the loop comes to
    its end within one pass more than there are entries. It gives 0 when
    no entry holds, and otherwise the 1-based position of the first entry
    that is not null and greater than 0; the event position is never
    greater than the size of the array. *)
Theorem event_level_of_short_array fuel ele_vector :
  (length ele_vector ≤ 255)%nat → (length ele_vector < fuel)%nat →
  ∃ event_level,
    event_level_loop fuel ele_vector 0 = Some event_level
    ∧ 0 ≤ event_level ≤ Z.of_nat (length ele_vector)
    ∧ (event_level = 0 → ∀ j, condition_holds (ele_vector !! j) = false)
    ∧ (1 ≤ event_level →
       condition_holds (ele_vector !! Z.to_nat (event_level - 1)) = true
       ∧ ∀ j : nat, Z.of_nat j < event_level - 1 →
                    condition_holds (ele_vector !! j) = false).
Proof.
  intros Hlen Hfuel. exists (first_match 1 ele_vector).
  split; [by apply event_level_loop_short|].
  split; [apply first_match_range|].
  destruct (first_match_cases ele_vector 1)
    as [[-> Hnone]|(k & -> & Hk & Hat & Hbefore)]; [lia| |].
  - split; [done|lia].
  - split; [lia|]. intros _.
    replace (Z.to_nat (1 + Z.of_nat k - 1)) with k by lia.
    split; [done|]. intros j Hj. apply Hbefore. lia.
Qed.

Lemma event_level_of_short_array_witness :
  ∃ event_level,
    event_level_loop 4 [Some 0; None; Some 1] 0 = Some event_level
    ∧ 0 ≤ event_level ≤ 3.
Proof.
  destruct (event_level_of_short_array 4 [Some 0; None; Some 1])
    as (lvl & Hloop & Hrange & _).
  - simpl. lia.
  - simpl. lia.
  - exists lvl. split; [exact Hloop|exact Hrange].
Defined.

(** X11. On a condition array of 256 entries or more, none of the first
    256 of which holds, the loop never comes to its end: the counter is a
    [uint8_t] and stays below the size of the array for ever. No amount of
    passes gives an event position, and [update] gives no state. *)
Theorem event_level_loop_diverges ele_vector :
  (256 ≤ length ele_vector)%nat →
  (∀ j : nat, (j < 256)%nat → condition_holds (ele_vector !! j) = false) →
  ∀ fuel,
    event_level_loop fuel ele_vector 0 = None
    ∧ ∀ window st timestamp,
        Rows.update fuel window st (timestamp, ele_vector) = None.
Proof.
  intros Hlen Hnone.
  assert (Hloop : ∀ fuel (i : nat),
            (i < 256)%nat →
            event_level_loop fuel ele_vector (Z.of_nat i) = None).
  { induction fuel as [|fuel IH]; intros i Hi; [done|].
    cbn [event_level_loop]. rewrite bool_decide_eq_true_2 by lia.
    rewrite Nat2Z.id, Hnone by done.
    unfold to_uint8.
    replace ((Z.of_nat i + 1) `mod` 256)
      with (Z.of_nat (Z.to_nat ((Z.of_nat i + 1) `mod` 256))).
    - apply IH. pose proof (Z.mod_pos_bound (Z.of_nat i + 1) 256). lia.
    - pose proof (Z.mod_pos_bound (Z.of_nat i + 1) 256). lia. }
  intros fuel. split; [apply (Hloop fuel 0%nat); lia|].
  intros window st timestamp. unfold Rows.update. cbn [fst snd].
  change 0 with (Z.of_nat 0) at 1. by rewrite Hloop by lia.
Qed.

Lemma event_level_loop_diverges_witness :
  event_level_loop 1000 (replicate 256 (Some 0)) 0 = None.
Proof.
  apply (event_level_loop_diverges (replicate 256 (Some 0))).
  - rewrite length_replicate. lia.
  - intros j Hj. by rewrite lookup_replicate_2.
Defined.

(** X12. The event position is stored in a [uint8_t]: when the first
    entry that holds is the 256th, its position 256 is stored as 0, and
    the row is recorded like a row that matches nothing. *)
Theorem event_level_wraps_at_256 fuel ele_vector :
  (255 < length ele_vector)%nat →
  condition_holds (ele_vector !! 255%nat) = true →
  (∀ j : nat, (j < 255)%nat → condition_holds (ele_vector !! j) = false) →
  (255 < fuel)%nat →
  event_level_loop fuel ele_vector 0 = Some 0.
Proof.
  intros Hlen Hat Hbefore Hfuel.
  apply (event_level_loop_found ele_vector 255 Hlen ltac:(lia) Hat
           Hbefore fuel 0); lia.
Qed.

Lemma event_level_wraps_at_256_witness :
  event_level_loop 256 (replicate 255 None ++ [Some 1]) 0 = Some 0.
Proof.
  apply (event_level_wraps_at_256 256 (replicate 255 None ++ [Some 1])).
  - rewrite length_app, length_replicate. simpl. lia.
  - rewrite lookup_app_r by (rewrite length_replicate; lia).
    by rewrite length_replicate.
  - intros j Hj. rewrite lookup_app_l by (rewrite length_replicate; lia).
    by rewrite lookup_replicate_2.
  - lia.
Defined.

End event_level.

(** ** From rows to the level *)

Section chunk.
Context (fuel : nat) (window : Z) (conditions : nat).
Hypothesis conditions_fit : (conditions ≤ 255)%nat.
Hypothesis enough_fuel : (conditions < fuel)%nat.

Lemma update_row_short st (row : Rows.Row) :
  length row.2 = conditions →
  Rows.update fuel window st row
  = Some (WindowFunnelAggregateFunction.update window (Z.of_nat conditions)
            st (Rows.event_of row)).
Proof.
  intros Hlen. unfold Rows.update.
  rewrite event_level_loop_short by lia. simpl. by rewrite Hlen.
Qed.

Lemma update_chunk_short rows : ∀ st,
  sized conditions rows →
  Rows.update_chunk fuel window st rows
  = Some (update_rows window (Z.of_nat conditions) st
            (Rows.event_of <$> rows)).
Proof.
  induction rows as [|row rows IH]; intros st Hrows; [done|].
  apply Forall_cons in Hrows as [Hrow Hrows].
  cbn [Rows.update_chunk]. rewrite update_row_short by done. simpl.
  by rewrite IH.
Qed.

Lemma convert_short (row : Rows.Row) :
  length row.2 = conditions →
  Rows.convert fuel row
  = Some (WindowFunnelAggregateFunction.convert_row (Z.of_nat conditions)
            (Rows.event_of row)).
Proof.
  intros Hlen. unfold Rows.convert.
  rewrite event_level_loop_short by lia. simpl. by rewrite Hlen.
Qed.

Lemma convert_to_serialize_format_short rows dst :
  sized conditions rows →
  Rows.convert_to_serialize_format fuel rows dst
  = Some (dst ++ (WindowFunnelAggregateFunction.convert_row
                    (Z.of_nat conditions) ∘ Rows.event_of <$> rows)).
Proof.
  intros Hrows. unfold Rows.convert_to_serialize_format.
  rewrite (mapM_Some_2 _ rows
             (WindowFunnelAggregateFunction.convert_row
                (Z.of_nat conditions) ∘ Rows.event_of <$> rows)); [done|].
  apply Forall2_fmap_r, Forall_Forall2_diag.
  eapply Forall_impl; [exact Hrows|]. intros row Hrow. by apply convert_short.
Qed.

Lemma event_of_in_range (row : Rows.Row) :
  length row.2 = conditions →
  step_in_range (Z.of_nat conditions) (Rows.event_of row).
Proof.
  intros Hlen. unfold step_in_range, Rows.event_of. simpl.
  rewrite <-Hlen. apply first_match_range.
Qed.

End chunk.

Lemma update_rows_Forall (P : TimestampEvent → Prop) window conditions st
    rows :
  Forall P (events_list st) → Forall P rows →
  Forall P (events_list (update_rows window conditions st rows)).
Proof.
  intros Hst. induction rows as [|row rows IH] using rev_ind; [done|].
  intros [Hrows Hrow]%Forall_app. apply Forall_cons in Hrow as [Hrow _].
  rewrite update_rows_snoc. unfold WindowFunnelAggregateFunction.update.
  rewrite update_eq_described. unfold update_described.
  case_bool_decide; cbn [events_list]; [by apply IH|].
  apply Forall_app. split; [by apply IH|]. constructor; [|done].
  by destruct row.
Qed.

Lemma get_event_level_bounded st :
  is_uint8 (events_size st) →
  Forall (step_in_range (events_size st)) (events_list st) →
  ∃ level, get_event_level st = Some level ∧ 0 ≤ level ≤ events_size st.
Proof.
  intros Hn Hl. unfold get_event_level, is_uint8 in *.
  pose proof (scanned_events_Forall _ st Hl) as Hl'.
  destruct (scan_in_range (window_size st) (events_size st)
              (scanned_events st) (replicate (Z.to_nat (events_size st)) (-1)))
    as [->|[ts' Hscan]]; [by rewrite length_replicate|done| |].
  - exists (events_size st). split; [done|lia].
  - rewrite Hscan. pose proof (scan_length _ _ _ _ _ Hscan) as Hlen.
    rewrite length_replicate in Hlen.
    destruct (last_reached_bounds ts' (length ts')) as (v & -> & ?); [done|].
    exists v. split; [done|lia].
Qed.

(** X13. Rows whose condition arrays have the same size, at most 255,
    never take the aggregate out of bounds: updating a fresh state with
    them row by row and finalizing gives a level between 0 and the number
    of conditions. *)
Theorem finalize_of_rows_in_range fuel window (conditions : nat)
    window0 events0 rows :
  (conditions ≤ 255)%nat → (conditions < fuel)%nat →
  sized conditions rows → rows ≠ [] →
  ∃ st level,
    Rows.update_chunk fuel window (fresh window0 events0) rows = Some st
    ∧ WindowFunnelAggregateFunction.finalize_to_column st = Some level
    ∧ 0 ≤ level ≤ Z.of_nat conditions.
Proof.
  intros Hfit Hfuel Hrows Hne.
  rewrite (update_chunk_short fuel window conditions) by done.
  set (st := update_rows _ _ _ _).
  destruct (update_rows_fields window (Z.of_nat conditions)
              (fresh window0 events0) (Rows.event_of <$> rows))
    as (_ & _ & Hn).
  { intros Hnil. by apply fmap_nil_inv in Hnil. }
  fold st in Hn. rewrite to_uint8_id in Hn by (unfold is_uint8; lia).
  destruct (get_event_level_bounded st) as (level & Hlevel & Hrange).
  - rewrite Hn. unfold is_uint8. lia.
  - rewrite Hn. apply update_rows_Forall; [constructor|].
    apply Forall_fmap. eapply Forall_impl; [exact Hrows|].
    intros row Hrow. by apply event_of_in_range.
  - exists st, level. rewrite Hn in Hrange. done.
Qed.

Lemma finalize_of_rows_in_range_witness :
  ∃ st level,
    Rows.update_chunk 3 3600 (fresh 0 0)
      [(10, [None; Some 1]); (0, [Some 1; Some 1]); (5, [Some 0; None])]
    = Some st
    ∧ WindowFunnelAggregateFunction.finalize_to_column st = Some level
    ∧ 0 ≤ level ≤ 2.
Proof.
  apply (finalize_of_rows_in_range 3 3600 2 0 0
           [(10, [None; Some 1]); (0, [Some 1; Some 1]); (5, [Some 0; None])]).
  - lia.
  - lia.
  - repeat constructor.
  - discriminate.
Defined.

(** The array of a converted row is the array of a state that holds that
    row alone, with the flag off. *)
Lemma convert_row_as_state window conditions row :
  WindowFunnelAggregateFunction.convert_row conditions row
  = datum_array_of (mkState [row] window conditions false).
Proof. done. Qed.

Lemma mjoin_singletons window conditions (evs : list TimestampEvent) :
  mjoin (events_list
           <$> ((λ ev, mkState [ev] window conditions false) <$> evs))
  = evs.
Proof.
  induction evs as [|ev evs IH]; [done|].
  rewrite !fmap_cons, mjoin_cons, IH. done.
Qed.

(** X14. The two ways into the aggregate agree. Rows whose condition
    arrays have the same size, at most 255, can be fed to [update] one by
    one, or converted by [convert_to_serialize_format] into one array per
    row and merged into a fresh state: both ways succeed and finalize to
    the same level. *)
Theorem convert_then_merge_equals_update fuel window (conditions : nat)
    window0 events0 rows :
  (conditions ≤ 255)%nat → (conditions < fuel)%nat →
  sized conditions rows →
  Forall (λ row : Rows.Row, is_int64 row.1) rows →
  ∃ updated column merged,
    Rows.update_chunk fuel window (fresh window0 events0) rows = Some updated
    ∧ Rows.convert_to_serialize_format fuel rows [] = Some column
    ∧ merge_rows window (fresh window0 events0) column = Some merged
    ∧ WindowFunnelAggregateFunction.finalize_to_column merged
      = WindowFunnelAggregateFunction.finalize_to_column updated.
Proof.
  intros Hfit Hfuel Hrows Htime.
  rewrite (update_chunk_short fuel window conditions) by done.
  rewrite (convert_to_serialize_format_short fuel conditions) by done.
  rewrite app_nil_l, list_fmap_compose.
  set (evs := Rows.event_of <$> rows).
  set (single := λ ev : TimestampEvent,
                   mkState [ev] window (Z.of_nat conditions) false).
  assert (Hcol : WindowFunnelAggregateFunction.convert_row
                   (Z.of_nat conditions) <$> evs
                 = datum_array_of <$> (single <$> evs)).
  { rewrite <-list_fmap_compose. by apply list_fmap_ext. }
  rewrite Hcol.
  assert (Hn : to_uint8 (Z.of_nat conditions) = Z.of_nat conditions).
  { apply to_uint8_id. unfold is_uint8. lia. }
  assert (Hevs : Forall well_typed_event evs).
  { apply Forall_fmap, Forall_forall. intros row Hrow.
    rewrite Forall_forall in Htime. unfold sized in Hrows.
    rewrite Forall_forall in Hrows.
    split; [by apply Htime|]. simpl. unfold is_uint8.
    pose proof (first_match_range row.2) as Hr.
    rewrite (Hrows row Hrow) in Hr. lia. }
  destruct (merge_rows_states window (Z.of_nat conditions) (single <$> evs)
              (fresh window0 events0))
    as (merged & Hm & Hflag & Hperm & Hnil & Hcons).
  { intros _. constructor. }
  { apply Forall_fmap. eapply Forall_impl; [exact Hevs|]. intros ev Hev.
    split; [split|split]; simpl.
    - unfold is_uint8. lia.
    - by constructor.
    - intros Hf. discriminate Hf.
    - by rewrite Hn. }
  eexists _, _, merged. split; [done|]. split; [done|]. split; [done|].
  unfold WindowFunnelAggregateFunction.finalize_to_column.
  unfold single in Hperm.
  rewrite (mjoin_singletons window (Z.of_nat conditions) evs) in Hperm.
  simpl in Hperm.
  destruct (decide (evs = [])) as [Hempty|Hsome].
  - rewrite Hnil by (by rewrite Hempty). by rewrite Hempty.
  - destruct Hcons as [Hw Hsize].
    { intros Hnone. by apply fmap_nil_inv in Hnone. }
    destruct (update_rows_fields window (Z.of_nat conditions)
                (fresh window0 events0) evs Hsome) as (_ & Hw' & Hsize').
    apply get_event_level_determined.
    + by rewrite Hw, Hw'.
    + by rewrite Hsize, Hsize'.
    + done.
    + apply reachable_flag_honest, update_rows_reachable, reachable_fresh.
    + by rewrite Hperm, update_rows_matched.
Qed.

Lemma convert_then_merge_equals_update_witness :
  ∃ updated column merged,
    Rows.update_chunk 3 3600 (fresh 0 0)
      [(10, [None; Some 1]); (0, [Some 1; Some 1]); (5, [Some 0; None])]
    = Some updated
    ∧ Rows.convert_to_serialize_format 3
        [(10, [None; Some 1]); (0, [Some 1; Some 1]); (5, [Some 0; None])] []
      = Some column
    ∧ merge_rows 3600 (fresh 0 0) column = Some merged
    ∧ WindowFunnelAggregateFunction.finalize_to_column merged
      = WindowFunnelAggregateFunction.finalize_to_column updated.
Proof.
  apply (convert_then_merge_equals_update 3 3600 2 0 0
           [(10, [None; Some 1]); (0, [Some 1; Some 1]); (5, [Some 0; None])]).
  - lia.
  - lia.
  - repeat constructor.
  - repeat constructor; simpl; lia.
Defined.

(** ** A state without funnel events *)

Lemma scan_step_empty_vector window events e :
  e.2 ≠ 0 → scan_step window events [] e = OutOfRange.
Proof.
  intros He. unfold scan_step.
  rewrite (proj2 (Z.eqb_neq _ _) He). by destruct (e.2 - 1 =? 0).
Qed.

Lemma scan_empty_vector window events l :
  matched l ≠ [] → scan window events [] l = OutOfRange.
Proof.
  induction l as [|e l IH]; [done|].
  unfold matched. rewrite filter_cons. fold (matched l).
  destruct (decide (e.2 ≠ 0)) as [He|He]; intros Hl; simpl.
  - by rewrite scan_step_empty_vector.
  - apply dec_stable in He. unfold scan_step. rewrite He. simpl. by apply IH.
Qed.

Lemma get_event_level_no_events st :
  events_size st = 0 → matched (events_list st) ≠ [] →
  get_event_level st = None.
Proof.
  intros Hn Hl. unfold get_event_level. rewrite Hn. simpl.
  rewrite scan_empty_vector; [done|].
  intros Hnil. apply Hl. apply Permutation_nil_r.
  by rewrite <-Hnil, scanned_events_perm.
Qed.

(** X15. The size of the condition array is stored in a [uint8_t]. With
    256 conditions, or any multiple of 256, the state is left with 0
    events, and [get_event_level] then reaches outside the empty
    [events_timestamp] as soon as the state holds one element with a
    non-zero event position. *)
Theorem event_count_narrowed_to_zero fuel window st row st' :
  (256 | Z.of_nat (length row.2)) →
  Rows.update fuel window st row = Some st' →
  events_size st' = 0
  ∧ (matched (events_list st') ≠ [] →
     WindowFunnelAggregateFunction.finalize_to_column st' = None).
Proof.
  intros Hdiv Hupd. unfold Rows.update in Hupd.
  destruct (Rows.event_level_loop fuel row.2 0) as [lvl|]; [|done].
  simpl in Hupd. simplify_eq.
  assert (Hn : events_size
                 (WindowFunnelAggregateFunction.update window
                    (Z.of_nat (length row.2)) st (row.1, lvl)) = 0).
  { unfold WindowFunnelAggregateFunction.update.
    rewrite (proj2 (update_fields _ _ _)). simpl. unfold to_uint8.
    by apply Z.mod_divide. }
  split; [done|]. intros Hl. by apply get_event_level_no_events.
Qed.

Lemma event_count_narrowed_to_zero_witness :
  WindowFunnelAggregateFunction.finalize_to_column
    (WindowFunnelAggregateFunction.update 3600 256 (fresh 0 0) (7, 1))
  = None.
Proof.
  apply (event_count_narrowed_to_zero 257 3600 (fresh 0 0)
           (7, Some 1 :: replicate 255 None)).
  - exists 1. reflexivity.
  - vm_compute. reflexivity.
  - vm_compute. discriminate.
Defined.

(** ** Level 0 and the step-1 elements *)

Lemma scan_step_return_start window events ts e v :
  scan_step window events ts e = Return v →
  v = events ∧ ∃ (i : nat) start, ts !! i = Some start ∧ 0 ≤ start.
Proof.
  unfold scan_step. intros Hstep.
  destruct (e.2 =? 0); [done|].
  destruct (e.2 - 1 =? 0); [by destruct (ts !! 0%nat)|].
  destruct (ts !! Z.to_nat (e.2 - 1 - 1)) as [start|] eqn:Hstart; [|done].
  destruct (Z.leb_spec 0 start); [|done]. simpl in Hstep.
  destruct (e.1 <=? to_time (start + window)); [|done].
  destruct (ts !! Z.to_nat (e.2 - 1)); [|done].
  destruct (e.2 - 1 + 1 =? events); [|done].
  simplify_eq. eauto.
Qed.

Lemma scan_return_value window events l : ∀ ts v,
  scan window events ts l = Return v → v = events.
Proof.
  induction l as [|e l IH]; intros ts v Hscan; [done|]. simpl in Hscan.
  destruct (scan_step window events ts e) as [ts1|v1|] eqn:Hstep; [| |done].
  - by eapply IH.
  - simplify_eq. by apply scan_step_return_start in Hstep as [? _].
Qed.

Lemma scan_return_start window events l : ∀ seen ts v,
  holds_starts seen ts →
  scan window events ts l = Return v →
  ∃ x, 0 ≤ x ∧ (x, 1) ∈ seen ++ l.
Proof.
  induction l as [|e l IH]; intros seen ts v Hts Hscan; [done|].
  simpl in Hscan.
  destruct (scan_step window events ts e) as [ts1|v1|] eqn:Hstep; [| |done].
  - destruct (IH (seen ++ [e]) ts1 v) as (x & Hx & Hin); [|done|].
    + by eapply scan_step_holds_starts.
    + exists x. split; [done|]. by rewrite <-(assoc_L (++)) in Hin.
  - apply scan_step_return_start in Hstep as (_ & i & start & Hi & Hstart).
    destruct (Hts i start Hi) as [->|Hin]; [lia|].
    exists start. split; [done|]. apply elem_of_app. by left.
Qed.

Lemma last_reached_positive ts : ∀ event v,
  last_reached ts event = Some v → 1 ≤ v →
  ∃ (i : nat) x, ts !! i = Some x ∧ 0 ≤ x.
Proof.
  induction event as [|event IH]; intros v Hv Hpos; simpl in Hv.
  - simplify_eq. lia.
  - destruct (ts !! event) as [x|] eqn:Hx; [|done]. simpl in Hv.
    destruct (Z.leb_spec 0 x); [eauto|]. by eapply IH.
Qed.

Lemma last_reached_at_least ts (i : nat) x :
  ts !! i = Some x → 0 ≤ x →
  ∀ event, (i < event ≤ length ts)%nat →
  ∃ v, last_reached ts event = Some v ∧ Z.of_nat i + 1 ≤ v.
Proof.
  intros Hi Hx. induction event as [|event IH]; intros Hev; [lia|].
  simpl. destruct (lookup_lt_is_Some_2 ts event) as [y Hy]; [lia|].
  rewrite Hy. simpl. destruct (Z.leb_spec 0 y).
  - eexists. split; [done|]. lia.
  - destruct (decide (i = event)) as [->|Hne].
    + rewrite Hi in Hy. simplify_eq. lia.
    + apply IH. lia.
Qed.

(** Once the entry at index 0 is set and only elements with a
    non-negative timestamp are left, the entry stays set. *)
Lemma scan_start_stays window events l : ∀ ts ts',
  Forall (λ e : TimestampEvent, 0 ≤ e.1 ∧ 0 ≤ e.2) l →
  (∃ x, ts !! 0%nat = Some x ∧ 0 ≤ x) →
  scan window events ts l = Continue ts' →
  ∃ x', ts' !! 0%nat = Some x' ∧ 0 ≤ x'.
Proof.
  induction l as [|e l IH]; intros ts ts' Hl Hts Hscan; simpl in Hscan.
  - by simplify_eq.
  - apply Forall_cons in Hl as [[Ht Hs] Hl].
    destruct (scan_step window events ts e) as [ts1| |] eqn:Hstep; try done.
    apply (IH ts1 ts' Hl); [|done].
    destruct Hts as (x & Hx & Hx0).
    unfold scan_step in Hstep.
    destruct (Z.eqb_spec (e.2) 0) as [|Hnz]; [by simplify_eq; eauto|].
    destruct (Z.eqb_spec (e.2 - 1) 0) as [|Hnz'].
    + rewrite Hx in Hstep. simplify_eq. exists (e.1).
      split; [|done]. apply list_lookup_insert_eq. by eapply lookup_lt_Some.
    + repeat case_match; simplify_eq; eauto.
      exists x. split; [|done]. rewrite list_lookup_insert_ne by lia. done.
Qed.

(** X16. For a log of at least one event whose elements have event
    positions in range, the level is at least 1 exactly when the log holds
    a step-1 element with a non-negative timestamp. *)
Theorem level_positive_iff_start st :
  is_uint8 (events_size st) → 1 ≤ events_size st →
  Forall (step_in_range (events_size st)) (events_list st) →
  flag_honest (sorted st) (events_list st) →
  ∃ level,
    get_event_level st = Some level
    ∧ (1 ≤ level ↔ ∃ timestamp, 0 ≤ timestamp ∧ (timestamp, 1) ∈ events_list st).
Proof.
  intros Hn Hn1 Hl Hflag.
  destruct (get_event_level_bounded st Hn Hl) as (level & Hlevel & Hrange).
  exists level. split; [done|].
  set (ts0 := replicate (Z.to_nat (events_size st)) (-1)).
  assert (Hts0 : holds_starts [] ts0).
  { intros i x Hx. apply lookup_replicate in Hx as [-> _]. by left. }
  unfold get_event_level in Hlevel. fold ts0 in Hlevel.
  split.
  - (* a set entry holds the timestamp of a step-1 element *)
    intros Hpos.
    assert (∃ x, 0 ≤ x ∧ (x, 1) ∈ scanned_events st) as (x & Hx & Hin).
    { destruct (scan _ _ ts0 _) as [ts'|v|] eqn:Hscan; [| |done].
      - destruct (last_reached_positive _ _ _ Hlevel Hpos)
          as (i & x & Hi & Hx).
        destruct (scan_holds_starts _ _ _ [] ts0 ts' Hts0 Hscan i x Hi)
          as [->|Hin]; [lia|]. eauto.
      - destruct (scan_return_start _ _ _ [] ts0 v Hts0 Hscan)
          as (x & Hx & Hin). eauto. }
    exists x. split; [done|]. by rewrite <-scanned_events_perm.
  - (* the last step-1 element sets the entry at index 0 for good *)
    intros (t & Ht & Hin). rewrite <-scanned_events_perm in Hin.
    apply list_elem_of_split in Hin as (pre & post & Hsplit).
    pose proof (scanned_events_sorted st Hflag) as Hsorted.
    apply Sorted_StronglySorted in Hsorted; [|apply _].
    pose proof (scanned_events_Forall _ st Hl) as Hrange'.
    rewrite Hsplit in Hsorted, Hrange', Hlevel.
    apply StronglySorted_app in Hsorted as (_ & _ & Hpost).
    apply StronglySorted_cons in Hpost as [Hpost _].
    apply Forall_app in Hrange' as [_ Hrange'].
    apply Forall_cons in Hrange' as [_ Hrange'].
    rewrite scan_app in Hlevel.
    destruct (scan _ _ ts0 pre) as [ts1|v|] eqn:Hpre; [| |done].
    + pose proof (scan_length _ _ _ _ _ Hpre) as Hlen1.
      unfold ts0 in Hlen1. rewrite length_replicate in Hlen1.
      destruct (lookup_lt_is_Some_2 ts1 0) as [x0 Hx0]; [lia|].
      cbn [scan] in Hlevel. unfold scan_step in Hlevel at 1.
      cbn [fst snd] in Hlevel. simpl (1 =? 0) in Hlevel.
      simpl (1 - 1 =? 0) in Hlevel. cbv iota in Hlevel. rewrite Hx0 in Hlevel.
      destruct (scan _ _ (<[0%nat:=t]> ts1) post) as [ts'|v|] eqn:Hscan;
        [| |done].
      * assert (Hnonneg : Forall (λ e : TimestampEvent, 0 ≤ e.1 ∧ 0 ≤ e.2)
                            post).
        { apply Forall_forall. intros e He.
          rewrite Forall_forall in Hpost. rewrite Forall_forall in Hrange'.
          split.
          - specialize (Hpost e He). apply pair_le_iff in Hpost. simpl in *.
            lia.
          - apply (Hrange' e He). }
        assert (Hset : ∃ x, <[0%nat:=t]> ts1 !! 0%nat = Some x ∧ 0 ≤ x).
        { exists t. split; [|done]. apply list_lookup_insert_eq. lia. }
        destruct (scan_start_stays _ _ _ _ ts' Hnonneg Hset Hscan)
          as (x' & Hx' & Hx'0).
        destruct (last_reached_at_least ts' 0 x' Hx' Hx'0 (length ts'))
          as (v & Hv & Hv1).
        { apply lookup_lt_Some in Hx'. lia. }
        rewrite Hv in Hlevel. simplify_eq. lia.
      * simplify_eq. apply scan_return_value in Hscan. lia.
    + simplify_eq. apply scan_return_value in Hpre. lia.
Qed.

Lemma level_positive_iff_start_witness :
  ∃ level,
    get_event_level (mkState [(-4, 1); (5, 2)] 10 2 true) = Some level
    ∧ (1 ≤ level
       ↔ ∃ timestamp, 0 ≤ timestamp ∧ (timestamp, 1) ∈ [(-4, 1); (5, 2)]).
Proof.
  apply (level_positive_iff_start (mkState [(-4, 1); (5, 2)] 10 2 true)).
  - unfold is_uint8. simpl. lia.
  - simpl. lia.
  - repeat constructor; simpl; lia.
  - intros _. repeat constructor; unfold pair_le, pair_lt; simpl; lia.
Defined.

(** ** The size of the window *)

Lemma same_entry_lookup_le ts ts' (i : nat) :
  Forall2 no_later ts ts' →
  match ts !! i, ts' !! i with
  | Some x, Some y => no_later x y
  | None, None => True
  | _, _ => False
  end.
Proof.
  intros Hts. revert i.
  induction Hts as [|x y ts1 ts2 Hxy _ IH]; intros [|i]; simpl; try done.
  apply IH.
Qed.

(** The starts held stay starts for which the sum of the window check
    does not wrap. *)
Lemma scan_step_starts_fit window events ts e ts' :
  (0 ≤ e.1 → is_int64 (e.1 + window)) →
  starts_fit window ts →
  scan_step window events ts e = Continue ts' →
  starts_fit window ts'.
Proof.
  intros He Hts Hstep. unfold scan_step in Hstep.
  destruct (e.2 =? 0); [by simplify_eq|].
  destruct (e.2 - 1 =? 0).
  - destruct (ts !! 0%nat) eqn:H0; [|done]. simplify_eq.
    intros i x Hx Hx0. destruct (decide (i = 0%nat)) as [->|Hi].
    + rewrite list_lookup_insert_eq in Hx by (by eapply lookup_lt_Some).
      simplify_eq. by apply He.
    + rewrite list_lookup_insert_ne in Hx by done. by eapply Hts.
  - destruct (ts !! Z.to_nat (e.2 - 1 - 1)) as [start|] eqn:Hstart; [|done].
    destruct ((0 <=? start) && (e.1 <=? to_time (start + window)));
      [|by simplify_eq].
    destruct (ts !! Z.to_nat (e.2 - 1)) eqn:Hm; [|done].
    destruct (e.2 - 1 + 1 =? events); [done|]. simplify_eq.
    intros i x Hx Hx0.
    destruct (decide (i = Z.to_nat (e.2 - 1))) as [->|Hi].
    + rewrite list_lookup_insert_eq in Hx by (by eapply lookup_lt_Some).
      simplify_eq. by eapply Hts.
    + rewrite list_lookup_insert_ne in Hx by done. by eapply Hts.
Qed.

Lemma scan_starts_fit window events l : ∀ ts ts',
  window_fits window l →
  starts_fit window ts →
  scan window events ts l = Continue ts' →
  starts_fit window ts'.
Proof.
  induction l as [|e l IH]; intros ts ts' Hl Hts Hscan; simpl in Hscan.
  - by simplify_eq.
  - apply Forall_cons in Hl as [He Hl].
    destruct (scan_step window events ts e) as [ts1| |] eqn:Hstep; try done.
    eapply IH; [done| |done]. by eapply scan_step_starts_fit.
Qed.

Lemma starts_fit_unset window n : starts_fit window (replicate n (-1)).
Proof. intros i x Hx Hx0. apply lookup_replicate in Hx as [-> _]. lia. Qed.

Section wider_window.
Context (window window' events : Z).
Hypothesis wider : window ≤ window'.

Lemma scan_step_wider ts ts' e l :
  step_in_range events e →
  length ts = Z.to_nat events →
  Forall (pair_le e) l →
  starts_fit window ts → starts_fit window' ts' →
  starts_before ts (e :: l) → starts_descend ts →
  Forall2 no_later ts ts' →
  match scan_step window events ts e, scan_step window' events ts' e with
  | Continue ts1, Continue ts1' =>
      starts_before ts1 l ∧ starts_descend ts1 ∧ Forall2 no_later ts1 ts1'
  | Continue ts1, Return _ => True
  | Return _, Return _ => True
  | _, _ => False
  end.
Proof.
  intros [Hlo Hhi] Hlen Hel Hfit Hfit' Hbefore Hdesc Hts.
  pose proof (Forall2_length _ _ _ Hts) as Hlen'.
  assert (Htail : starts_before ts l).
  { intros i x Hx. specialize (Hbefore i x Hx).
    by apply Forall_cons in Hbefore as [_ ?]. }
  unfold scan_step.
  destruct (Z.eqb_spec (e.2) 0) as [|Hnz]; [done|].
  destruct (Z.eqb_spec (e.2 - 1) 0) as [H1|Hnz'].
  - (* a step-1 element: both scans store its timestamp *)
    destruct (lookup_lt_is_Some_2 ts 0) as [x0 Hx0]; [lia|].
    destruct (lookup_lt_is_Some_2 ts' 0) as [x0' Hx0']; [lia|].
    rewrite Hx0, Hx0'. split; [|split].
    + intros i x Hx. destruct (decide (i = 0%nat)) as [->|Hi].
      * rewrite list_lookup_insert_eq in Hx by lia. simplify_eq.
        eapply Forall_impl; [exact Hel|]. intros e' He'.
        apply pair_le_iff in He'. right. lia.
      * rewrite list_lookup_insert_ne in Hx by done. by eapply Htail.
    + intros i x y Hx Hy. rewrite list_lookup_insert_ne in Hy by lia.
      destruct (decide (i = 0%nat)) as [->|Hi].
      * rewrite list_lookup_insert_eq in Hx by lia. simplify_eq.
        specialize (Hbefore 1%nat y Hy).
        by apply Forall_cons in Hbefore as [? _].
      * rewrite list_lookup_insert_ne in Hx by done. by eapply Hdesc.
    + apply Forall2_insert; [done|]. right. lia.
  - (* a later step *)
    set (i0 := Z.to_nat (e.2 - 1 - 1)).
    assert (Hi1 : Z.to_nat (e.2 - 1) = S i0) by (unfold i0; lia).
    rewrite Hi1.
    destruct (lookup_lt_is_Some_2 ts i0) as [s Hs]; [unfold i0; lia|].
    destruct (lookup_lt_is_Some_2 ts' i0) as [s' Hs']; [unfold i0; lia|].
    destruct (lookup_lt_is_Some_2 ts (S i0)) as [m Hm]; [unfold i0; lia|].
    destruct (lookup_lt_is_Some_2 ts' (S i0)) as [m' Hm']; [unfold i0; lia|].
    rewrite Hs, Hs', Hm, Hm'.
    pose proof (same_entry_lookup_le ts ts' i0 Hts) as Hss.
    rewrite Hs, Hs' in Hss.
    pose proof (Hdesc i0 s m Hs Hm) as Hms.
    destruct (Z.leb_spec 0 s) as [Hs0|Hs0];
      [rewrite (to_time_id (s + window)) by (by eapply Hfit);
       destruct (Z.leb_spec (e.1) (s + window)) as [Hsw|Hsw]|]; simpl.
    + (* the check passes for the smaller window, hence for the wider *)
      assert (s ≤ s') as Hle by (destruct Hss; lia).
      rewrite (to_time_id (s' + window')) by (eapply Hfit'; [done|lia]).
      rewrite (proj2 (Z.leb_le 0 s')), (proj2 (Z.leb_le (e.1) (s' + window')))
        by lia. simpl.
      destruct (e.2 - 1 + 1 =? events); [done|].
      split; [|split].
      * intros i x Hx. destruct (decide (i = S i0)) as [->|Hi].
        -- rewrite list_lookup_insert_eq in Hx by lia. simplify_eq.
           by eapply (Htail i0).
        -- rewrite list_lookup_insert_ne in Hx by done. by eapply Htail.
      * intros i x y Hx Hy.
        destruct (decide (i = S i0)) as [->|Hi];
          [|destruct (decide (i = i0)) as [->|Hi']].
        -- rewrite list_lookup_insert_eq in Hx by lia.
           rewrite list_lookup_insert_ne in Hy by lia. simplify_eq.
           pose proof (Hdesc (S i0) m y Hm Hy) as Hym.
           unfold no_later in *. lia.
        -- rewrite list_lookup_insert_ne in Hx by lia.
           rewrite list_lookup_insert_eq in Hy by lia. simplify_eq.
           right. lia.
        -- rewrite list_lookup_insert_ne in Hx by lia.
           rewrite list_lookup_insert_ne in Hy by lia. by eapply Hdesc.
      * apply Forall2_insert; [done|]. right. lia.
    + (* the check fails for the smaller window *)
      destruct ((0 <=? s') && (e.1 <=? to_time (s' + window'))); [|done].
      destruct (e.2 - 1 + 1 =? events); [done|].
      split; [done|]. split; [done|].
      rewrite <-(list_insert_id ts (S i0) m) by done.
      apply Forall2_insert; [done|].
      unfold no_later in *. lia.
    + (* no start is held for the step before *)
      destruct ((0 <=? s') && (e.1 <=? to_time (s' + window'))); [|done].
      destruct (e.2 - 1 + 1 =? events); [done|].
      split; [done|]. split; [done|].
      rewrite <-(list_insert_id ts (S i0) m) by done.
      apply Forall2_insert; [done|].
      unfold no_later in *. lia.
Qed.

End wider_window.

Lemma scan_wider window window' events l : ∀ ts ts',
  window ≤ window' →
  StronglySorted pair_le l →
  Forall (step_in_range events) l →
  window_fits window l → window_fits window' l →
  length ts = Z.to_nat events →
  starts_fit window ts → starts_fit window' ts' →
  starts_before ts l → starts_descend ts →
  Forall2 no_later ts ts' →
  wider_outcome (scan window events ts l) (scan window' events ts' l).
Proof.
  induction l as [|e l IH];
    intros ts ts' Hw Hsorted Hrange Hwl Hwl' Hlen Hfit Hfit' Hbefore Hdesc Hts;
    [done|].
  apply StronglySorted_cons in Hsorted as [Hel Hsorted].
  apply Forall_cons in Hrange as [He Hrange].
  apply Forall_cons in Hwl as [Hwe Hwl].
  apply Forall_cons in Hwl' as [Hwe' Hwl'].
  pose proof (scan_step_wider window window' events Hw ts ts' e l
                He Hlen Hel Hfit Hfit' Hbefore Hdesc Hts) as Hstep.
  simpl.
  destruct (scan_step window events ts e) as [ts1|v|] eqn:H1,
           (scan_step window' events ts' e) as [ts1'|v'|] eqn:H1';
    try done.
  - destruct Hstep as (Hbefore1 & Hdesc1 & Hts1).
    apply IH; try done.
    + by rewrite (scan_step_length _ _ _ _ _ H1).
    + by eapply scan_step_starts_fit.
    + by eapply scan_step_starts_fit.
  - destruct (scan_in_range window events l ts1) as [->|[tf ->]]; try done.
    by rewrite (scan_step_length _ _ _ _ _ H1).
Qed.

Lemma last_reached_wider ts ts' :
  Forall2 no_later ts ts' →
  ∀ event, (event ≤ length ts)%nat →
  ∃ v v',
    last_reached ts event = Some v ∧ last_reached ts' event = Some v'
    ∧ v ≤ v'.
Proof.
  intros Hts. pose proof (Forall2_length _ _ _ Hts) as Hlen.
  induction event as [|event IH]; intros Hev.
  - exists 0, 0. done.
  - simpl.
    pose proof (same_entry_lookup_le ts ts' event Hts) as Hxy.
    destruct (lookup_lt_is_Some_2 ts event) as [x Hx]; [lia|].
    destruct (lookup_lt_is_Some_2 ts' event) as [y Hy]; [lia|].
    rewrite Hx, Hy in *. simpl.
    destruct (IH ltac:(lia)) as (v & v' & Hv & Hv' & Hle).
    destruct (last_reached_bounds ts event ltac:(lia)) as (v0 & Hv0 & Hb).
    rewrite Hv in Hv0. simplify_eq.
    destruct (Z.leb_spec 0 x), (Z.leb_spec 0 y).
    + eexists _, _. split; [done|]. split; [done|]. lia.
    + unfold no_later in Hxy. lia.
    + eexists _, _. split; [done|]. split; [done|]. lia.
    + eauto.
Qed.

(** X17. A wider window never lowers the level, as long as the sums of
    the window check do not wrap: for a log whose event positions are in
    range and whose flag is honest, a window of type [int64_t] and a window
    at least as wide that, added to any non-negative timestamp of the log,
    stays within [int64_t], the level under the first window is at most
    the level under the second. *)
Theorem wider_window_never_lowers_level l window window' events flag :
  window ≤ window' →
  is_uint8 events →
  Forall (step_in_range events) l →
  flag_honest flag l →
  is_int64 window →
  window_fits window' l →
  ∃ level level',
    get_event_level (mkState l window events flag) = Some level
    ∧ get_event_level (mkState l window' events flag) = Some level'
    ∧ level ≤ level'.
Proof.
  intros Hw Hn Hl Hflag Hint Hfits'.
  assert (Hfits : window_fits window l).
  { eapply Forall_impl; [exact Hfits'|]. intros e He He0.
    specialize (He He0). unfold is_int64 in *. lia. }
  destruct (get_event_level_bounded (mkState l window events flag) Hn Hl)
    as (level & Hlevel & Hrange).
  destruct (get_event_level_bounded (mkState l window' events flag) Hn Hl)
    as (level' & Hlevel' & Hrange').
  exists level, level'. split; [done|]. split; [done|].
  unfold get_event_level in Hlevel, Hlevel'.
  cbn [window_size events_size] in *.
  assert (Hsame : scanned_events (mkState l window' events flag)
                  = scanned_events (mkState l window events flag)) by done.
  rewrite Hsame in Hlevel'.
  set (evs := scanned_events (mkState l window events flag)) in *.
  set (ts0 := replicate (Z.to_nat events) (-1)) in *.
  assert (Hout : wider_outcome (scan window events ts0 evs)
                               (scan window' events ts0 evs)).
  { apply scan_wider; [done| | | | | | | | | |].
    - apply Sorted_StronglySorted; [apply _|].
      by apply (scanned_events_sorted (mkState l window events flag)).
    - by apply (scanned_events_Forall _ (mkState l window events flag)).
    - by apply (scanned_events_Forall _ (mkState l window events flag)).
    - by apply (scanned_events_Forall _ (mkState l window events flag)).
    - unfold ts0. by rewrite length_replicate.
    - apply starts_fit_unset.
    - apply starts_fit_unset.
    - intros i x Hx. apply lookup_replicate in Hx as [-> _].
      apply Forall_forall. intros e _. left. lia.
    - intros i x y _ Hy. apply lookup_replicate in Hy as [-> _]. left. lia.
    - apply Forall_Forall2_diag, Forall_forall. intros x _. right. lia. }
  destruct (scan window events ts0 evs) as [tf|v|] eqn:Hs,
           (scan window' events ts0 evs) as [tf'|v'|] eqn:Hs';
    simpl in Hout; try done.
  - destruct (last_reached_wider tf tf' Hout (length tf) ltac:(lia))
      as (v & v' & Hv & Hv' & Hle).
    rewrite <-(Forall2_length _ _ _ Hout) in Hlevel'.
    rewrite Hv in Hlevel. rewrite Hv' in Hlevel'. by simplify_eq.
  - apply scan_return_value in Hs'. simplify_eq. simpl in Hrange. lia.
  - apply scan_return_value in Hs. apply scan_return_value in Hs'.
    simplify_eq. lia.
Qed.

Lemma wider_window_never_lowers_level_witness :
  ∃ level level',
    get_event_level (mkState [(0, 1); (5, 2); (6, 1); (12, 3)] 3 3 true)
    = Some level
    ∧ get_event_level (mkState [(0, 1); (5, 2); (6, 1); (12, 3)] 20 3 true)
      = Some level'
    ∧ level ≤ level'.
Proof.
  apply (wider_window_never_lowers_level
           [(0, 1); (5, 2); (6, 1); (12, 3)] 3 20 3 true).
  - lia.
  - unfold is_uint8. lia.
  - repeat constructor; simpl; lia.
  - intros _. repeat constructor; unfold pair_le, pair_lt; simpl; lia.
  - unfold is_int64. lia.
  - repeat constructor; unfold is_int64; simpl; lia.
Defined.

(** ** The level is witnessed by a chain *)

Lemma chain_in_mono window seen seen' start steps :
  (∀ e, e ∈ seen → e ∈ seen') →
  chain_in window seen start steps → chain_in window seen' start steps.
Proof.
  intros Hsub [Hstart Hsteps]. split; [by apply Hsub|].
  intros step Hstep. destruct (Hsteps step Hstep) as (t & Ht & Hw).
  exists t. split; [by apply Hsub|done].
Qed.

Lemma chain_in_extend window seen start steps timestamp :
  1 ≤ steps →
  chain_in window seen start steps →
  timestamp ≤ start + window →
  chain_in window (seen ++ [(timestamp, steps + 1)]) start (steps + 1).
Proof.
  intros Hsteps [Hstart Hchain] Hw. split.
  - apply elem_of_app. by left.
  - intros step Hstep. destruct (decide (step = steps + 1)) as [->|Hne].
    + exists timestamp. split; [|done]. apply elem_of_app. right. by left.
    + destruct (Hchain step) as (t & Ht & Htw); [lia|].
      exists t. split; [|done]. apply elem_of_app. by left.
Qed.

Lemma scan_step_witnessed window events seen ts e :
  is_int64 window →
  0 ≤ e.2 →
  starts_witnessed window seen ts →
  match scan_step window events ts e with
  | Continue ts' => starts_witnessed window (seen ++ [e]) ts'
  | Return level =>
      ∃ start, 0 ≤ start ∧ chain_in window (seen ++ [e]) start level
  | OutOfRange => True
  end.
Proof.
  intros Hint Hs Hts.
  assert (Hmono : starts_witnessed window (seen ++ [e]) ts).
  { intros i x Hx Hx0. eapply chain_in_mono; [|by eapply Hts].
    intros e' He'. apply elem_of_app. by left. }
  unfold scan_step. destruct e as [t s]. simpl in *.
  destruct (Z.eqb_spec s 0) as [|Hnz]; [done|].
  destruct (Z.eqb_spec (s - 1) 0) as [H1|Hnz'].
  - destruct (ts !! 0%nat) as [x0|] eqn:Hx0; [|done].
    intros i x Hx Hxpos. destruct (decide (i = 0%nat)) as [->|Hi].
    + rewrite list_lookup_insert_eq in Hx by (by eapply lookup_lt_Some).
      simplify_eq. assert (s = 1) as -> by lia. split.
      * apply elem_of_app. right. by left.
      * intros step Hstep. simpl in Hstep. lia.
    + rewrite list_lookup_insert_ne in Hx by done. by eapply Hmono.
  - destruct (ts !! Z.to_nat (s - 1 - 1)) as [start|] eqn:Hstart; [|done].
    destruct (Z.leb_spec 0 start) as [Hstart0|]; [|done].
    destruct (Z.leb_spec t (to_time (start + window))) as [Hw'|]; [|done].
    simpl.
    assert (Hw : t ≤ start + window).
    { etrans; [exact Hw'|]. apply to_time_le. unfold is_int64 in Hint. lia. }
    destruct (ts !! Z.to_nat (s - 1)) as [m|] eqn:Hm; [|done].
    assert (Hchain : chain_in window (seen ++ [(t, s)]) start s).
    { pose proof (Hts _ _ Hstart Hstart0) as Hc.
      replace (Z.of_nat (Z.to_nat (s - 1 - 1)) + 1) with (s - 1) in Hc by lia.
      replace s with (s - 1 + 1) by lia.
      replace (s - 1 + 1 - 1) with (s - 1) by lia.
      apply chain_in_extend; [lia|done|done]. }
    destruct (Z.eqb_spec (s - 1 + 1) events) as [Hn|Hn].
    + exists start. split; [done|]. by replace events with s by lia.
    + intros i x Hx Hxpos.
      destruct (decide (i = Z.to_nat (s - 1))) as [->|Hi].
      * rewrite list_lookup_insert_eq in Hx by (by eapply lookup_lt_Some).
        simplify_eq.
        by replace (Z.of_nat (Z.to_nat (s - 1)) + 1) with s by lia.
      * rewrite list_lookup_insert_ne in Hx by done. by eapply Hmono.
Qed.

Lemma scan_witnessed window events l : ∀ seen ts,
  is_int64 window →
  Forall (λ e : TimestampEvent, 0 ≤ e.2) l →
  starts_witnessed window seen ts →
  match scan window events ts l with
  | Continue ts' => starts_witnessed window (seen ++ l) ts'
  | Return level =>
      ∃ start, 0 ≤ start ∧ chain_in window (seen ++ l) start level
  | OutOfRange => True
  end.
Proof.
  induction l as [|e l IH]; intros seen ts Hint Hl Hts; simpl.
  - by rewrite app_nil_r.
  - apply Forall_cons in Hl as [He Hl].
    pose proof (scan_step_witnessed window events seen ts e Hint He Hts)
      as Hstep.
    destruct (scan_step window events ts e) as [ts1|v|]; [| |done].
    + specialize (IH (seen ++ [e]) ts1 Hint Hl Hstep).
      by rewrite <-(assoc_L (++)) in IH.
    + destruct Hstep as (start & Hstart & Hchain).
      exists start. split; [done|].
      eapply chain_in_mono; [|done]. intros e' He'.
      rewrite (assoc_L (++) seen [e] l : seen ++ e :: l = (seen ++ [e]) ++ l).
      apply elem_of_app. by left.
Qed.

Lemma last_reached_entry ts : ∀ event v,
  last_reached ts event = Some v → 1 ≤ v →
  ∃ x, ts !! Z.to_nat (v - 1) = Some x ∧ 0 ≤ x.
Proof.
  induction event as [|event IH]; intros v Hv Hpos; simpl in Hv.
  - simplify_eq. lia.
  - destruct (ts !! event) as [x|] eqn:Hx; [|done]. simpl in Hv.
    destruct (Z.leb_spec 0 x); [|by eapply IH].
    simplify_eq. exists x. split; [|done].
    by replace (Z.to_nat (Z.of_nat (S event) - 1)) with event by lia.
Qed.

(** X18. A level is never reported without the rows that make it up:
    for a window that is an [int64_t] value, when [get_event_level] gives
    a level of at least 1, the log holds a step-1 element with a
    non-negative timestamp and, for every step from 2 to the level, an
    element of that step no later than the window after that start (the
    sum taken exactly: a sum that wraps on line 134 only makes the check
    harder to pass). *)
Theorem level_is_witnessed st level :
  is_int64 (window_size st) →
  Forall (λ e : TimestampEvent, 0 ≤ e.2) (events_list st) →
  get_event_level st = Some level →
  1 ≤ level →
  ∃ start,
    0 ≤ start
    ∧ (start, 1) ∈ events_list st
    ∧ ∀ step, 2 ≤ step ≤ level →
        ∃ timestamp,
          (timestamp, step) ∈ events_list st
          ∧ timestamp ≤ start + window_size st.
Proof.
  intros Hint Hl Hlevel Hpos. unfold get_event_level in Hlevel.
  set (ts0 := replicate (Z.to_nat (events_size st)) (-1)) in *.
  assert (Hts0 : starts_witnessed (window_size st) [] ts0).
  { intros i x Hx Hx0. apply lookup_replicate in Hx as [-> _]. lia. }
  pose proof (scan_witnessed (window_size st) (events_size st)
                (scanned_events st) [] ts0 Hint
                (scanned_events_Forall _ st Hl) Hts0) as Hscan.
  assert (∃ start, 0 ≤ start
            ∧ chain_in (window_size st) (scanned_events st) start level)
    as (start & Hstart & Hin & Hsteps).
  { destruct (scan _ _ ts0 _) as [ts'|v|]; [| |done].
    - destruct (last_reached_entry _ _ _ Hlevel Hpos) as (x & Hx & Hx0).
      exists x. split; [done|].
      pose proof (Hscan _ _ Hx Hx0) as Hc.
      by replace (Z.of_nat (Z.to_nat (level - 1)) + 1) with level in Hc by lia.
    - by simplify_eq. }
  exists start. split; [done|]. split.
  - by rewrite <-scanned_events_perm.
  - intros step Hstep. destruct (Hsteps step Hstep) as (t & Ht & Hw).
    exists t. split; [|done]. by rewrite <-scanned_events_perm.
Qed.

Lemma level_is_witnessed_witness :
  ∃ start,
    0 ≤ start
    ∧ (start, 1) ∈ [(0, 1); (1000, 2); (5000, 3)]
    ∧ ∀ step, 2 ≤ step ≤ 2 →
        ∃ timestamp,
          (timestamp, step) ∈ [(0, 1); (1000, 2); (5000, 3)]
          ∧ timestamp ≤ start + 3600.
Proof.
  apply (level_is_witnessed
           (mkState [(0, 1); (1000, 2); (5000, 3)] 3600 3 true) 2).
  - unfold is_int64. simpl. lia.
  - repeat constructor; simpl; lia.
  - reflexivity.
  - lia.
Defined.

(** ** A chain in the log is found *)

Lemma scan_step_entry window events ts e ts' :
  0 ≤ e.2 →
  scan_step window events ts e = Continue ts' →
  ∀ (j : nat) y,
    ts' !! j = Some y →
    ts !! j = Some y
    ∨ (e.2 = 1 ∧ j = 0%nat ∧ y = e.1)
    ∨ (2 ≤ e.2 ∧ Z.of_nat j = e.2 - 1
       ∧ ts !! (j - 1)%nat = Some y ∧ 0 ≤ y).
Proof.
  intros Hs Hstep j y Hy. unfold scan_step in Hstep.
  destruct (Z.eqb_spec (e.2) 0) as [|Hnz]; [simplify_eq; by left|].
  destruct (Z.eqb_spec (e.2 - 1) 0) as [H1|Hnz'].
  - destruct (ts !! 0%nat) as [x0|] eqn:Hx0; [|done]. simplify_eq.
    destruct (decide (j = 0%nat)) as [->|Hj].
    + rewrite list_lookup_insert_eq in Hy by (by eapply lookup_lt_Some).
      simplify_eq. right. left. split; [lia|done].
    + rewrite list_lookup_insert_ne in Hy by done. by left.
  - destruct (ts !! Z.to_nat (e.2 - 1 - 1)) as [start|] eqn:Hstart; [|done].
    destruct (Z.leb_spec 0 start) as [Hstart0|];
      [|simpl in Hstep; simplify_eq; by left].
    simpl in Hstep.
    destruct (e.1 <=? to_time (start + window)); [|simplify_eq; by left].
    destruct (ts !! Z.to_nat (e.2 - 1)) as [m|] eqn:Hm; [|done].
    destruct (e.2 - 1 + 1 =? events); [done|]. simplify_eq.
    destruct (decide (j = Z.to_nat (e.2 - 1))) as [->|Hj].
    + rewrite list_lookup_insert_eq in Hy by (by eapply lookup_lt_Some).
      simplify_eq. right. right. split; [lia|]. split; [lia|].
      split; [|done].
      by replace (Z.to_nat (e.2 - 1) - 1)%nat with (Z.to_nat (e.2 - 1 - 1))
        by lia.
    + rewrite list_lookup_insert_ne in Hy by done. by left.
Qed.

Section chain.
Context (window events : Z) (chain : list Z).

Lemma scan_step_chain_followed seen ts e l ts' :
  ordered_chain window (seen ++ e :: l) chain →
  StronglySorted pair_le (seen ++ e :: l) →
  step_in_range events e →
  length ts = Z.to_nat events →
  (length chain ≤ length ts)%nat →
  starts_fit window ts →
  chain_followed chain seen ts →
  scan_step window events ts e = Continue ts' →
  chain_followed chain (seen ++ [e]) ts'.
Proof.
  intros (Hin & Hmono & Hwin) Hsorted [Hlo Hhi] Hlen Hk Hfit Hinv Hstep.
  apply StronglySorted_app in Hsorted as (Hbefore & _ & _).
  assert (Hseen : ∀ e', e' ∈ seen → pair_le e' e).
  { intros e' He'. apply Hbefore; [done|by left]. }
  pose proof (scan_step_length _ _ _ _ _ Hstep) as Hlen'.
  intros j start Hstart Hchain Hj.
  destruct (lookup_lt_is_Some_2 chain j Hj) as [tj Htj].
  (* the elements of the chain before the one at [j] have been seen *)
  assert (Hearlier : ∀ (i : nat) t, (i < j)%nat → chain !! i = Some t →
                                    (t, Z.of_nat i + 1) ∈ seen).
  { intros i t Hi Ht.
    pose proof (Hchain i t ltac:(lia) Ht) as Hti.
    apply elem_of_app in Hti as [Hti|Hti%list_elem_of_singleton]; [done|].
    (* the element scanned now is an earlier one: the one at [j] would
       have come before it *)
    exfalso.
    pose proof (Hchain j tj ltac:(lia) Htj) as Htj'.
    apply elem_of_app in Htj' as [Htj'|Htj'%list_elem_of_singleton].
    - apply Hseen in Htj'. rewrite <-Hti in Htj'.
      apply pair_le_iff in Htj'. simpl in Htj'.
      pose proof (Hmono i j t tj ltac:(lia) Ht Htj). lia.
    - rewrite <-Hti in Htj'. simplify_eq. lia. }
  destruct (lookup_lt_is_Some_2 ts' j) as [y Hy]; [lia|].
  exists y. split; [done|].
  destruct (decide (e = (tj, Z.of_nat j + 1))) as [->|Hne].
  - (* the element at [j] of the chain is scanned now *)
    destruct j as [|j].
    + assert (tj = start) as -> by congruence.
      unfold scan_step in Hstep. simpl in Hstep.
      destruct (ts !! 0%nat); [|done]. simplify_eq.
      rewrite list_lookup_insert_eq in Hy by lia. by simplify_eq.
    + destruct (lookup_lt_is_Some_2 chain j ltac:(lia)) as [tp Htp].
      destruct (Hinv j start Hstart) as (x & Hx & Hsx); [|lia|].
      { intros i t Hi Ht. apply Hearlier; [lia|done]. }
      destruct (Hwin start (S j) tj Hstart Htj) as [Hstart0 Htjw].
      replace (Z.of_nat (S j) + 1) with (Z.of_nat (S j) + 1) in Hstep by done.
      rewrite (scan_step_extend window events ts tj (Z.of_nat (S j)) x)
        in Hstep; [|lia| |lia|lia|].
      * destruct (Z.of_nat (S j) + 1 =? events); [done|]. simplify_eq.
        rewrite Nat2Z.id, list_lookup_insert_eq in Hy by lia.
        by simplify_eq.
      * by replace (Z.to_nat (Z.of_nat (S j) - 1)) with j by lia.
      * (* the held start is not before the start of the chain, and its
           sum with the window does not wrap *)
        rewrite to_time_id; [lia|]. apply (Hfit j x Hx). lia.
  - (* all the elements of the chain up to [j] have been seen before *)
    assert (Hall : ∀ (i : nat) t, (i ≤ j)%nat → chain !! i = Some t →
                                  (t, Z.of_nat i + 1) ∈ seen).
    { intros i t Hi Ht. destruct (decide (i = j)) as [->|Hij].
      - assert (t = tj) as -> by congruence.
        pose proof (Hchain j tj ltac:(lia) Htj) as Heq.
        apply elem_of_app in Heq as [?|Heq%list_elem_of_singleton]; [done|].
        by rewrite Heq in Hne.
      - apply Hearlier; [lia|done]. }
    destruct (Hinv j start Hstart Hall Hj) as (x & Hx & Hsx).
    destruct (scan_step_entry _ _ _ _ _ Hlo Hstep j y Hy)
      as [Hold|[(He2 & -> & ->)|(He2 & Hje & Hprev & Hy0)]].
    + by simplify_eq.
    + (* a later step-1 element *)
      specialize (Hall 0%nat start ltac:(lia) Hstart).
      apply Hseen, pair_le_iff in Hall. simpl in Hall. lia.
    + (* the start of the step before is handed on *)
      destruct j as [|j]; [lia|].
      replace (S j - 1)%nat with j in Hprev by lia.
      destruct (Hinv j start Hstart) as (x' & Hx' & Hsx'); [|lia|].
      { intros i t Hi Ht. apply Hall; [lia|done]. }
      by simplify_eq.
Qed.

Lemma scan_chain_followed l : ∀ seen ts,
  ordered_chain window (seen ++ l) chain →
  StronglySorted pair_le (seen ++ l) →
  Forall (step_in_range events) l →
  length ts = Z.to_nat events →
  (length chain ≤ length ts)%nat →
  window_fits window l →
  starts_fit window ts →
  chain_followed chain seen ts →
  match scan window events ts l with
  | Continue ts' => chain_followed chain (seen ++ l) ts'
  | _ => True
  end.
Proof.
  induction l as [|e l IH];
    intros seen ts Hchain Hsorted Hl Hlen Hk Hwf Hfit Hinv.
  - simpl. by rewrite app_nil_r.
  - apply Forall_cons in Hl as [He Hl]. apply Forall_cons in Hwf as [Hwe Hwf].
    simpl.
    destruct (scan_step window events ts e) as [ts1| |] eqn:Hstep; [|done..].
    pose proof (scan_step_length _ _ _ _ _ Hstep) as Hlen1.
    pose proof (scan_step_starts_fit _ _ _ _ _ Hwe Hfit Hstep) as Hfit1.
    pose proof (scan_step_chain_followed seen ts e l ts1 Hchain Hsorted He
                  Hlen Hk Hfit Hinv Hstep) as Hinv1.
    rewrite (assoc_L (++) seen [e] l : seen ++ e :: l = (seen ++ [e]) ++ l)
      in Hchain, Hsorted |- *.
    apply IH; try done; lia.
Qed.

End chain.

(** X19. A chain in the log is found. When the window added to any
    non-negative timestamp of the log stays within [int64_t] (the sum on
    line 134 does not wrap), and a log with an honest flag and event
    positions in range holds elements of the steps 1 to k whose timestamps
    do not decrease from step to step, start at a non-negative timestamp
    and all lie within the window after that start, then the level is at
    least k. *)
Theorem ordered_chain_is_found st chain :
  is_uint8 (events_size st) →
  Forall (step_in_range (events_size st)) (events_list st) →
  flag_honest (sorted st) (events_list st) →
  window_fits (window_size st) (events_list st) →
  ordered_chain (window_size st) (events_list st) chain →
  Z.of_nat (length chain) ≤ events_size st →
  ∃ level,
    get_event_level st = Some level ∧ Z.of_nat (length chain) ≤ level.
Proof.
  intros Hn Hl Hflag Hwf Hchain Hk.
  destruct (get_event_level_bounded st Hn Hl) as (level & Hlevel & Hrange).
  exists level. split; [done|].
  destruct (decide (length chain = 0%nat)) as [->|Hne]; [lia|].
  destruct (lookup_lt_is_Some_2 chain 0) as [start Hstart]; [lia|].
  unfold get_event_level in Hlevel.
  set (ts0 := replicate (Z.to_nat (events_size st)) (-1)) in *.
  assert (Hchain' : ordered_chain (window_size st) (scanned_events st) chain).
  { destruct Hchain as (Hin & Hmono & Hwin). split; [|done].
    intros j t Ht. rewrite scanned_events_perm. by apply Hin. }
  assert (Hlen0 : length ts0 = Z.to_nat (events_size st)).
  { unfold ts0. by rewrite length_replicate. }
  pose proof (scan_chain_followed (window_size st) (events_size st) chain
                (scanned_events st) [] ts0 Hchain') as Hscan.
  destruct (scan _ _ ts0 (scanned_events st)) as [ts'|v|] eqn:Hs; [| |done].
  - pose proof (scan_length _ _ _ _ _ Hs) as Hlen'.
    assert (Hfollowed : chain_followed chain ([] ++ scanned_events st) ts').
    { apply Hscan.
      - apply Sorted_StronglySorted; [apply _|].
        by apply scanned_events_sorted.
      - by apply scanned_events_Forall.
      - done.
      - lia.
      - by apply scanned_events_Forall.
      - apply starts_fit_unset.
      - intros j start' Hstart' Hseen _.
        specialize (Hseen 0%nat start' ltac:(lia) Hstart').
        by apply not_elem_of_nil in Hseen. }
    destruct (Hfollowed (length chain - 1)%nat start Hstart)
      as (x & Hx & Hsx).
    + destruct Hchain' as (Hin & _ & _). intros i t _ Ht. by apply Hin.
    + lia.
    + destruct Hchain as (_ & _ & Hwin).
      destruct (Hwin start 0%nat start Hstart Hstart) as [Hstart0 _].
      destruct (last_reached_at_least ts' (length chain - 1) x Hx
                  ltac:(lia) (length ts')) as (v & Hv & Hle); [lia|].
      rewrite Hv in Hlevel. simplify_eq. lia.
  - apply scan_return_value in Hs. simplify_eq. lia.
Qed.

Lemma ordered_chain_is_found_witness :
  ∃ level,
    get_event_level (mkState [(0, 1); (5, 2)] 10 2 true) = Some level
    ∧ 2 ≤ level.
Proof.
  apply (ordered_chain_is_found (mkState [(0, 1); (5, 2)] 10 2 true) [0; 5]).
  - unfold is_uint8. simpl. lia.
  - repeat constructor; simpl; lia.
  - intros _. repeat constructor; unfold pair_le, pair_lt; simpl; lia.
  - repeat constructor; unfold is_int64; simpl; lia.
  - split; [|split].
    + intros [|[|j]] t Ht; simpl in Ht; [| |done].
      * injection Ht as <-. left.
      * injection Ht as <-. right. left.
    + intros [|[|i]] [|[|j]] s t Hij Hs Ht; simpl in Hs, Ht;
        simplify_eq; lia.
    + intros start [|[|j]] t Hs Ht; simpl in *; simplify_eq; lia.
  - simpl. lia.
Defined.

(** ** A sum that does not fit *)

(** X20. The sum of the window check is reduced to [int64_t]. For the log
    (1,1), (2,2) of two events the level is 2 under the window 10 and 1
    under the widest window 2^63 - 1, whose sum with the start 1 does not
    fit; for the start 2^63 - 2 and the window 10 the element
    (2^63 - 1, 2), one second after the start, is not counted either. *)
Theorem window_sum_reduced_to_int64 :
  get_event_level (mkState [(1, 1); (2, 2)] 10 2 true) = Some 2
  ∧ get_event_level (mkState [(1, 1); (2, 2)] (2 ^ 63 - 1) 2 true) = Some 1
  ∧ get_event_level
      (mkState [(2 ^ 63 - 2, 1); (2 ^ 63 - 1, 2)] 10 2 true) = Some 1.
Proof. by vm_compute. Qed.
